(** * api_yamdb / reviews: the persistence schema and its integrity rules

    A shallow embedding of [reviews/models.py] and of migration
    [reviews/migrations/0003_auto_20240705_1915.py].

    The source is declarative: every class is a list of field declarations
    (validators, [on_delete] policies, [auto_now_add], [unique]) plus a
    [Meta] block (ordering, constraints).  The declarations are transcribed
    one by one in the modules below; the behaviour that the ORM attaches to
    them (field validation, the storage-level constraints, the deletion
    collector, default ordering) is written once, as functions that read
    the declarations. *)

From stdpp Require Import gmap strings list sorting.
From Stdlib Require Import ZArith Lia.
From Stdlib Require OrderedTypeEx.

Open Scope Z_scope.

(** ** Errors *)

(** [ValidationError] is raised by the validation of a value, before any
    write; [ValidationErrorDict] is the validation error that
    [clean_fields] raises for a whole instance, carrying the names of the
    fields that failed; [IntegrityError] is raised by the storage layer
    when a constraint of the schema is violated. *)
Inductive error :=
  | ValidationError (field : string)
  | IntegrityError (constraint : string)
  | ValidationErrorDict (fields : list string).

Definition result (A : Type) : Type := error + A.

Definition ok {A} (a : A) : result A := inr a.
Definition raise {A} (e : error) : result A := inl e.

Global Instance result_ret : MRet result := λ A a, inr a.
Global Instance result_bind : MBind result := λ A B k m,
  match m with
  | inl e => inl e
  | inr a => k a
  end.

Global Instance result_fmap : FMap result := λ A B f m,
  match m with
  | inl e => inl e
  | inr a => inr (f a)
  end.

Definition is_ok {A} (m : result A) : bool :=
  match m with inr _ => true | inl _ => false end.

(** ** reviews.constants

    [reviews/constants.py] is imported by [models.py] but its values are
    policy; the two bounds that the score validators read and the length
    that bounds a name are taken as a parameter of the development. *)
Class Constants := {
  MIN_SCORE_VALUE : Z;
  MAX_SCORE_VALUE : Z;
  FIELD_MAX_LENGTH : Z
}.

(** ** Field machinery *)

(** [on_delete] policies of a [ForeignKey]; the schema uses these two. *)
Inductive on_delete := CASCADE | SET_NULL.

(** Validators attached to integer fields.  The first two are
    [django.core.validators]; the third is [reviews.validators]. *)
Inductive validator :=
  | MinValueValidator (limit_value : Z)
  | MaxValueValidator (limit_value : Z)
  | validate_year_ref.

(** Modelled from the spec: [reviews/validators.py] is not among the
    sources.  [validate_year(value)] "fails with ValidationError when
    [value] is greater than the current calendar year.  No lower bound
    enforced." *)
Definition validate_year (current_year value : Z) : result unit :=
  if current_year <? value then raise (ValidationError "year") else ok tt.

Definition run_validator (current_year : Z) (v : validator) (value : Z)
  : result unit :=
  match v with
  | MinValueValidator limit_value =>
      if value <? limit_value then raise (ValidationError "min_value")
      else ok tt
  | MaxValueValidator limit_value =>
      if limit_value <? value then raise (ValidationError "max_value")
      else ok tt
  | validate_year_ref => validate_year current_year value
  end.

Fixpoint run_validators (current_year : Z) (vs : list validator) (value : Z)
  : result unit :=
  match vs with
  | [] => ok tt
  | v :: vs' =>
      run_validator current_year v value;; run_validators current_year vs' value
  end.

(** [PositiveSmallIntegerField]: the column is created with the check
    [value >= 0] and the storage layer refuses a negative value.  The
    field type puts no validator of its own on the value, and no upper
    bound is declared anywhere in the schema. *)
Definition PositiveSmallIntegerField_check (name : string) (value : Z)
  : result unit :=
  if 0 <=? value then ok tt else raise (IntegrityError name).

(** ** Text

    A text is held as the bytes of its UTF-8 encoding, which is the form
    in which it is stored and compared.  A character starts at every byte
    that is not a continuation byte (a byte from 128 to 191); lengths and
    slices count characters. *)
Definition is_continuation (a : Ascii.ascii) : bool :=
  let n := Ascii.N_of_ascii a in ((128 <=? n) && (n <? 192))%N.

(** [len(s)]. *)
Fixpoint utf8_length (s : string) : nat :=
  match s with
  | EmptyString => O
  | String a s' =>
      ((if is_continuation a then 0 else 1) + utf8_length s')%nat
  end.

(** The first [n] characters of [s]. *)
Fixpoint utf8_take (n : nat) (s : string) : string :=
  match s with
  | EmptyString => EmptyString
  | String a s' =>
      if is_continuation a then String a (utf8_take n s')
      else match n with
           | O => EmptyString
           | S n' => String a (utf8_take n' s')
           end
  end.

(** Column values, for the parts of [Meta] that name fields by string. *)
Inductive value :=
  | VNull
  | VInt (n : Z)
  | VStr (s : string).

Global Instance value_eq_dec : EqDecision value.
Proof. solve_decision. Defined.

Definition compare_value (a b : value) : comparison :=
  match a, b with
  | VNull, VNull => Eq
  | VNull, _ => Lt
  | _, VNull => Gt
  | VInt m, VInt n => Z.compare m n
  | VInt _, VStr _ => Lt
  | VStr _, VInt _ => Gt
  | VStr s, VStr t => String.compare s t
  end.

(** [models.UniqueConstraint(fields=..., name=...)]. *)
Record UniqueConstraint := {
  uc_fields : list string;
  uc_name : string
}.

(** ** The models *)

Module User.
Definition USER : string := "user".
Definition ADMIN : string := "admin".
Definition MODERATOR : string := "moderator".

(** [is_superuser] is inherited from [AbstractUser]. *)
Record t := {
  username : string;
  email : string;
  bio : string;
  role : string;
  is_superuser : bool
}.

Definition username_unique : bool := true.
Definition email_unique : bool := true.
Definition role_default : string := "user".

Module Meta.
Definition ordering : list string := ["username"].
End Meta.

Definition get (f : string) (u : t) : value :=
  if String.eqb f "username" then VStr (username u)
  else if String.eqb f "email" then VStr (email u)
  else if String.eqb f "bio" then VStr (bio u)
  else if String.eqb f "role" then VStr (role u)
  else VNull.

Definition is_admin (self : t) : bool :=
  String.eqb (role self) ADMIN || is_superuser self.

Definition is_moderator (self : t) : bool :=
  String.eqb (role self) MODERATOR.

Definition set_role (r : string) (u : t) : t :=
  {| username := username u; email := email u; bio := bio u;
     role := r; is_superuser := is_superuser u |}.

Definition set_is_superuser (b : bool) (u : t) : t :=
  {| username := username u; email := email u; bio := bio u;
     role := role u; is_superuser := b |}.
End User.

Module Category.
Record t := { name : string; slug : string }.
Definition slug_unique : bool := true.
Definition get (f : string) (x : t) : value :=
  if String.eqb f "name" then VStr (name x)
  else if String.eqb f "slug" then VStr (slug x)
  else VNull.
Module Meta.
Definition ordering : list string := ["slug"].
End Meta.
End Category.

Module Genre.
Record t := { name : string; slug : string }.
Definition slug_unique : bool := true.
Definition get (f : string) (x : t) : value :=
  if String.eqb f "name" then VStr (name x)
  else if String.eqb f "slug" then VStr (slug x)
  else VNull.
Module Meta.
Definition ordering : list string := ["slug"].
End Meta.
End Genre.

Module Title.
(** [genre] is a many-to-many relation through [GenreTitle]: it has no
    column of its own. *)
Record t := {
  name : string;
  year : Z;
  description : string;
  category : option Z
}.

Definition year_validators : list validator := [validate_year_ref].
Definition category_on_delete : on_delete := SET_NULL.
Definition category_null : bool := true.

(** The columns of the table, as the class declares them. *)
Definition columns : list string :=
  ["id"; "name"; "year"; "description"; "category"].

Definition get (f : string) (x : t) : value :=
  if String.eqb f "name" then VStr (name x)
  else if String.eqb f "year" then VInt (year x)
  else if String.eqb f "description" then VStr (description x)
  else if String.eqb f "category" then
    match category x with Some c => VInt c | None => VNull end
  else VNull.

Definition set_category (c : option Z) (x : t) : t :=
  {| name := name x; year := year x; description := description x;
     category := c |}.

Module Meta.
Definition ordering : list string := ["year"].
End Meta.
End Title.

Module GenreTitle.
Record t := { title : Z; genre : Z }.
Definition title_on_delete : on_delete := CASCADE.
Definition genre_on_delete : on_delete := CASCADE.

(** The class declares no [Meta]: no constraint, no ordering. *)
Module Meta.
Definition constraints : list UniqueConstraint := [].
End Meta.

Definition get (f : string) (x : t) : value :=
  if String.eqb f "title" then VInt (title x)
  else if String.eqb f "genre" then VInt (genre x)
  else VNull.
End GenreTitle.

Module Review.
Record t := {
  title : Z;
  text : string;
  author : Z;
  score : Z;
  pub_date : Z
}.

Definition title_on_delete : on_delete := CASCADE.
Definition author_on_delete : on_delete := CASCADE.
Definition score_validators `{Constants} : list validator :=
  [MinValueValidator MIN_SCORE_VALUE; MaxValueValidator MAX_SCORE_VALUE].
Definition pub_date_auto_now_add : bool := true.
Definition pub_date_auto_now : bool := false.

Module Meta.
Definition ordering : list string := ["pub_date"].
Definition constraints : list UniqueConstraint :=
  [ {| uc_fields := ["title"; "author"]; uc_name := "unique_review" |} ].
End Meta.

Definition get (f : string) (x : t) : value :=
  if String.eqb f "title" then VInt (title x)
  else if String.eqb f "text" then VStr (text x)
  else if String.eqb f "author" then VInt (author x)
  else if String.eqb f "score" then VInt (score x)
  else if String.eqb f "pub_date" then VInt (pub_date x)
  else VNull.

Definition set_pub_date (d : Z) (x : t) : t :=
  {| title := title x; text := text x; author := author x;
     score := score x; pub_date := d |}.
End Review.

Module Comment.
Record t := {
  review : Z;
  text : string;
  author : Z;
  pub_date : Z
}.

Definition review_on_delete : on_delete := CASCADE.
Definition author_on_delete : on_delete := CASCADE.
Definition pub_date_auto_now_add : bool := true.
Definition pub_date_auto_now : bool := false.

Module Meta.
Definition ordering : list string := ["pub_date"].
Definition constraints : list UniqueConstraint := [].
End Meta.

Definition get (f : string) (x : t) : value :=
  if String.eqb f "review" then VInt (review x)
  else if String.eqb f "text" then VStr (text x)
  else if String.eqb f "author" then VInt (author x)
  else if String.eqb f "pub_date" then VInt (pub_date x)
  else VNull.

Definition set_pub_date (d : Z) (x : t) : t :=
  {| review := review x; text := text x; author := author x;
     pub_date := d |}.
End Comment.

(** ** The store *)

(** One table per model, keyed by the surrogate primary key. *)
Record DB := {
  users : gmap Z User.t;
  categories : gmap Z Category.t;
  genres : gmap Z Genre.t;
  titles : gmap Z Title.t;
  genre_titles : gmap Z GenreTitle.t;
  reviews : gmap Z Review.t;
  comments : gmap Z Comment.t
}.

Definition empty_db : DB :=
  {| users := ∅; categories := ∅; genres := ∅; titles := ∅;
     genre_titles := ∅; reviews := ∅; comments := ∅ |}.

(** The primary key handed out by an insert: past every key in use. *)
Definition next_pk {A} (tbl : gmap Z A) : Z :=
  1 + map_fold (λ k _ m, Z.max k m) 0 tbl.

Definition set_users (db : DB) (x : gmap Z User.t) : DB :=
  {| users := x; categories := categories db; genres := genres db;
     titles := titles db; genre_titles := genre_titles db;
     reviews := reviews db; comments := comments db |}.
Definition set_categories (db : DB) (x : gmap Z Category.t) : DB :=
  {| users := users db; categories := x; genres := genres db;
     titles := titles db; genre_titles := genre_titles db;
     reviews := reviews db; comments := comments db |}.
Definition set_genres (db : DB) (x : gmap Z Genre.t) : DB :=
  {| users := users db; categories := categories db; genres := x;
     titles := titles db; genre_titles := genre_titles db;
     reviews := reviews db; comments := comments db |}.
Definition set_titles (db : DB) (x : gmap Z Title.t) : DB :=
  {| users := users db; categories := categories db; genres := genres db;
     titles := x; genre_titles := genre_titles db;
     reviews := reviews db; comments := comments db |}.
Definition set_genre_titles (db : DB) (x : gmap Z GenreTitle.t) : DB :=
  {| users := users db; categories := categories db; genres := genres db;
     titles := titles db; genre_titles := x;
     reviews := reviews db; comments := comments db |}.
Definition set_reviews (db : DB) (x : gmap Z Review.t) : DB :=
  {| users := users db; categories := categories db; genres := genres db;
     titles := titles db; genre_titles := genre_titles db;
     reviews := x; comments := comments db |}.
Definition set_comments (db : DB) (x : gmap Z Comment.t) : DB :=
  {| users := users db; categories := categories db; genres := genres db;
     titles := titles db; genre_titles := genre_titles db;
     reviews := reviews db; comments := x |}.

(** ** Storage-level checks *)

(** The tuple of values a row has on the fields of a constraint. *)
Definition project {A} (get : string → A → value) (fields : list string)
  (a : A) : list value :=
  (λ f, get f a) <$> fields.

(** Some row other than [self] agrees with [a] on [fields]. *)
Definition clashes {A} (get : string → A → value) (fields : list string)
  (self : option Z) (a : A) (tbl : gmap Z A) : Prop :=
  map_Exists (λ k x, Some k ≠ self ∧ project get fields x = project get fields a)
    tbl.

Fixpoint check_constraints {A} (get : string → A → value)
  (cs : list UniqueConstraint) (self : option Z) (a : A) (tbl : gmap Z A)
  : result unit :=
  match cs with
  | [] => ok tt
  | c :: cs' =>
      if bool_decide (clashes get (uc_fields c) self a tbl)
      then raise (IntegrityError (uc_name c))
      else check_constraints get cs' self a tbl
  end.

(** A field declared [unique=True] is a constraint over that one field. *)
Definition unique_field (f : string) : UniqueConstraint :=
  {| uc_fields := [f]; uc_name := f |}.

(** A foreign key must name an existing row of the referenced table. *)
Definition check_fk {P} (parent : gmap Z P) (name : string) (k : Z)
  : result unit :=
  match parent !! k with
  | Some _ => ok tt
  | None => raise (IntegrityError name)
  end.

Definition check_fk_null {P} (parent : gmap Z P) (name : string)
  (k : option Z) : result unit :=
  match k with
  | Some k' => check_fk parent name k'
  | None => ok tt
  end.

(** ** Model.save()

    [save] with a primary key that names an existing row is an UPDATE and
    calls every field's [pre_save] with [add = False]; otherwise it is an
    INSERT, with [add = True], at the given key or at the next key of the
    table.  [check self a] stands for the constraints of the table. *)
Definition save_row {A} (pre_save : bool → A → A)
  (check : option Z → A → result unit)
  (pk : option Z) (a : A) (tbl : gmap Z A) : result (Z * gmap Z A) :=
  match pk with
  | Some k =>
      match tbl !! k with
      | Some _ =>
          let a' := pre_save false a in
          check (Some k) a';; mret (k, <[k:=a']> tbl)
      | None =>
          let a' := pre_save true a in
          check None a';; mret (k, <[k:=a']> tbl)
      end
  | None =>
      let a' := pre_save true a in
      check None a';; mret (next_pk tbl, <[next_pk tbl:=a']> tbl)
  end.

(** [DateTimeField.pre_save]: the field is stamped with the clock when
    [auto_now] is set, or when [auto_now_add] is set and the row is being
    added; otherwise the attribute of the instance is written as it is. *)
Definition DateTimeField_pre_save (auto_now auto_now_add : bool) (add : bool)
  (now attr : Z) : Z :=
  if auto_now || (auto_now_add && add) then now else attr.

Definition Review_pre_save (now : Z) (add : bool) (r : Review.t) : Review.t :=
  Review.set_pub_date
    (DateTimeField_pre_save Review.pub_date_auto_now
       Review.pub_date_auto_now_add add now (Review.pub_date r)) r.

Definition Comment_pre_save (now : Z) (add : bool) (c : Comment.t)
  : Comment.t :=
  Comment.set_pub_date
    (DateTimeField_pre_save Comment.pub_date_auto_now
       Comment.pub_date_auto_now_add add now (Comment.pub_date c)) c.

Definition unique_if (unique : bool) (f : string) : list UniqueConstraint :=
  if unique then [unique_field f] else [].

Definition User_constraints : list UniqueConstraint :=
  unique_if User.username_unique "username" ++
  unique_if User.email_unique "email".

Definition User_check (db : DB) (self : option Z) (u : User.t) : result unit :=
  check_constraints User.get User_constraints self u (users db).

Definition User_save (pk : option Z) (u : User.t) (db : DB)
  : result (Z * DB) :=
  r ← save_row (λ _ x, x) (User_check db) pk u (users db);
  mret (r.1, set_users db r.2).

Definition Category_check (db : DB) (self : option Z) (c : Category.t)
  : result unit :=
  check_constraints Category.get (unique_if Category.slug_unique "slug")
    self c (categories db).


Definition Category_save (pk : option Z) (c : Category.t) (db : DB)
  : result (Z * DB) :=
  r ← save_row (λ _ x, x) (Category_check db) pk c (categories db);
  mret (r.1, set_categories db r.2).

Definition Genre_check (db : DB) (self : option Z) (g : Genre.t)
  : result unit :=
  check_constraints Genre.get (unique_if Genre.slug_unique "slug")
    self g (genres db).

Definition Genre_save (pk : option Z) (g : Genre.t) (db : DB)
  : result (Z * DB) :=
  r ← save_row (λ _ x, x) (Genre_check db) pk g (genres db);
  mret (r.1, set_genres db r.2).

Definition Title_check (db : DB) (self : option Z) (t : Title.t)
  : result unit :=
  PositiveSmallIntegerField_check "year" (Title.year t);;
  check_fk_null (categories db) "category" (Title.category t).

Definition Title_save (pk : option Z) (t : Title.t) (db : DB)
  : result (Z * DB) :=
  r ← save_row (λ _ x, x) (Title_check db) pk t (titles db);
  mret (r.1, set_titles db r.2).

Definition GenreTitle_check (db : DB) (self : option Z) (x : GenreTitle.t)
  : result unit :=
  check_fk (titles db) "title" (GenreTitle.title x);;
  check_fk (genres db) "genre" (GenreTitle.genre x);;
  check_constraints GenreTitle.get GenreTitle.Meta.constraints self x
    (genre_titles db).

Definition GenreTitle_save (pk : option Z) (x : GenreTitle.t) (db : DB)
  : result (Z * DB) :=
  r ← save_row (λ _ x, x) (GenreTitle_check db) pk x (genre_titles db);
  mret (r.1, set_genre_titles db r.2).

Definition Review_check (db : DB) (self : option Z) (r : Review.t)
  : result unit :=
  PositiveSmallIntegerField_check "score" (Review.score r);;
  check_fk (titles db) "title" (Review.title r);;
  check_fk (users db) "author" (Review.author r);;
  check_constraints Review.get Review.Meta.constraints self r (reviews db).

Definition Review_save (now : Z) (pk : option Z) (r : Review.t) (db : DB)
  : result (Z * DB) :=
  x ← save_row (Review_pre_save now) (Review_check db) pk r (reviews db);
  mret (x.1, set_reviews db x.2).

Definition Comment_check (db : DB) (self : option Z) (c : Comment.t)
  : result unit :=
  check_fk (reviews db) "review" (Comment.review c);;
  check_fk (users db) "author" (Comment.author c);;
  check_constraints Comment.get Comment.Meta.constraints self c (comments db).

Definition Comment_save (now : Z) (pk : option Z) (c : Comment.t) (db : DB)
  : result (Z * DB) :=
  x ← save_row (Comment_pre_save now) (Comment_check db) pk c (comments db);
  mret (x.1, set_comments db x.2).

(** ** Field validation

    [clean_fields] cleans the fields of an instance in the order of their
    declaration and collects the failures; when a field failed it raises
    one validation error that carries the names of the fields that failed.
    A text fails when it is blank and, where [max_length] is declared,
    when it has more characters than that; a foreign key fails when it is
    empty (none of them is declared [blank=True]) or names no stored row;
    a number fails when one of its validators does.  [pub_date] is not
    editable and is not validated.  [clean_fields] is a separate step from
    [save]: [save] does not call it. *)
Definition blank_error (name value : string) : list string :=
  if decide (value = "") then [name] else [].

Definition max_length_error (name : string) (max_length : Z) (value : string)
  : list string :=
  if decide (value = "") then [name]
  else if max_length <? Z.of_nat (utf8_length value) then [name]
  else [].

Definition fk_error {P} (parent : gmap Z P) (name : string) (k : Z)
  : list string :=
  match parent !! k with
  | Some _ => []
  | None => [name]
  end.

Definition validators_error (current_year : Z) (vs : list validator)
  (name : string) (value : Z) : list string :=
  if is_ok (run_validators current_year vs value) then [] else [name].

Definition raise_if_any (fields : list string) : result unit :=
  match fields with
  | [] => ok tt
  | _ :: _ => raise (ValidationErrorDict fields)
  end.

(** The fields of a title that fail validation. *)
Definition Title_field_errors `{Constants} (current_year : Z) (db : DB)
  (t : Title.t) : list string :=
  max_length_error "name" FIELD_MAX_LENGTH (Title.name t) ++
  validators_error current_year Title.year_validators "year" (Title.year t) ++
  blank_error "description" (Title.description t) ++
  match Title.category t with
  | Some c => fk_error (categories db) "category" c
  | None => ["category"]
  end.

Definition Title_clean_fields `{Constants} (current_year : Z) (db : DB)
  (t : Title.t) : result unit :=
  raise_if_any (Title_field_errors current_year db t).

(** The fields of a review that fail validation. *)
Definition Review_field_errors `{Constants} (current_year : Z) (db : DB)
  (r : Review.t) : list string :=
  fk_error (titles db) "title" (Review.title r) ++
  blank_error "text" (Review.text r) ++
  fk_error (users db) "author" (Review.author r) ++
  validators_error current_year Review.score_validators "score"
    (Review.score r).

Definition Review_clean_fields `{Constants} (current_year : Z) (db : DB)
  (r : Review.t) : result unit :=
  raise_if_any (Review_field_errors current_year db r).

(** Validate, then save. *)
Definition Title_clean_save `{Constants} (current_year : Z) (pk : option Z)
  (t : Title.t) (db : DB) : result (Z * DB) :=
  Title_clean_fields current_year db t;; Title_save pk t db.

Definition Review_clean_save `{Constants} (current_year now : Z)
  (pk : option Z) (r : Review.t) (db : DB) : result (Z * DB) :=
  Review_clean_fields current_year db r;; Review_save now pk r db.

(** ** Model.delete(): the collector *)

Definition refers (gone : gset Z) (fk : option Z) : bool :=
  match fk with
  | Some p => bool_decide (p ∈ gone)
  | None => false
  end.

(** What a foreign key with policy [policy] does to the table that holds
    it when the rows [gone] of the referenced table are deleted: the table
    afterwards, and the keys of the rows deleted along. *)
Definition collect {A} (policy : on_delete) (fk : A → option Z)
  (clear : A → A) (gone : gset Z) (tbl : gmap Z A) : gmap Z A * gset Z :=
  match policy with
  | CASCADE =>
      (filter (λ kx, refers gone (fk kx.2) = false) tbl,
       dom (filter (λ kx, refers gone (fk kx.2) = true) tbl))
  | SET_NULL =>
      ((λ x, if refers gone (fk x) then clear x else x) <$> tbl, ∅)
  end.

(** The foreign keys of the schema, followed from the referenced side:
    Category <- Title, Title <- GenreTitle -> Genre, Title <- Review -> User,
    Review <- Comment -> User. *)
Definition cascade (gu gc gg gt gr : gset Z) (db : DB) : DB :=
  let t1 := collect Title.category_on_delete Title.category
              (Title.set_category None) gc (titles db) in
  let gt' := gt ∪ t1.2 in
  let x1 := collect GenreTitle.title_on_delete
              (λ x, Some (GenreTitle.title x)) id gt' (genre_titles db) in
  let x2 := collect GenreTitle.genre_on_delete
              (λ x, Some (GenreTitle.genre x)) id gg x1.1 in
  let r1 := collect Review.title_on_delete
              (λ r, Some (Review.title r)) id gt' (reviews db) in
  let r2 := collect Review.author_on_delete
              (λ r, Some (Review.author r)) id gu r1.1 in
  let gr' := gr ∪ r1.2 ∪ r2.2 in
  let c1 := collect Comment.review_on_delete
              (λ c, Some (Comment.review c)) id gr' (comments db) in
  let c2 := collect Comment.author_on_delete
              (λ c, Some (Comment.author c)) id gu c1.1 in
  {| users := users db; categories := categories db; genres := genres db;
     titles := t1.1; genre_titles := x2.1; reviews := r2.1;
     comments := c2.1 |}.

Definition User_delete (k : Z) (db : DB) : DB :=
  cascade {[k]} ∅ ∅ ∅ ∅ (set_users db (delete k (users db))).
Definition Category_delete (k : Z) (db : DB) : DB :=
  cascade ∅ {[k]} ∅ ∅ ∅ (set_categories db (delete k (categories db))).
Definition Genre_delete (k : Z) (db : DB) : DB :=
  cascade ∅ ∅ {[k]} ∅ ∅ (set_genres db (delete k (genres db))).
Definition Title_delete (k : Z) (db : DB) : DB :=
  cascade ∅ ∅ ∅ {[k]} ∅ (set_titles db (delete k (titles db))).
Definition GenreTitle_delete (k : Z) (db : DB) : DB :=
  set_genre_titles db (delete k (genre_titles db)).
Definition Review_delete (k : Z) (db : DB) : DB :=
  cascade ∅ ∅ ∅ ∅ {[k]} (set_reviews db (delete k (reviews db))).
Definition Comment_delete (k : Z) (db : DB) : DB :=
  set_comments db (delete k (comments db)).

(** ** Default ordering of a listing

    A manager's listing with no explicit [order_by] is ordered by
    [Meta.ordering]: field after field, ascending.  Strings are compared by
    character code. *)
Fixpoint compare_by {A} (get : string → A → value) (ordering : list string)
  (a b : A) : comparison :=
  match ordering with
  | [] => Eq
  | f :: fs =>
      match compare_value (get f a) (get f b) with
      | Eq => compare_by get fs a b
      | c => c
      end
  end.

Definition ordered {A} (get : string → A → value) (ordering : list string)
  : relation (Z * A) :=
  λ x y, compare_by get ordering x.2 y.2 ≠ Gt.

Global Instance comparison_eq_dec : EqDecision comparison.
Proof. solve_decision. Defined.

Global Instance ordered_dec {A} (get : string → A → value)
  (ordering : list string) : RelDecision (ordered get ordering).
Proof. intros x y. unfold ordered. apply _. Defined.

Definition objects_all {A} (get : string → A → value)
  (ordering : list string) (tbl : gmap Z A) : list (Z * A) :=
  merge_sort (ordered get ordering) (map_to_list tbl).

Definition User_objects_all (db : DB) : list (Z * User.t) :=
  objects_all User.get User.Meta.ordering (users db).

(** ** Rating *)

(** The scores of the reviews that reference title [k], as stored now. *)
Definition Title_scores (k : Z) (db : DB) : list Z :=
  (λ kr, Review.score kr.2) <$>
    map_to_list (filter (λ kr, Review.title kr.2 = k) (reviews db)).

(** Modelled from the spec: the aggregation step is not among the
    sources; the spec leaves its rule open ("mean, rounding rule") and
    fixes only that rating is "a query-time aggregate over Review.score for
    the Title".  The rule is a parameter. *)
Definition Title_rating (aggregate : list Z → option Z) (k : Z) (db : DB)
  : option Z :=
  aggregate (Title_scores k db).

(** ** Migrations: the schema state *)

(** A model of the project state a migration acts on: for each model (by
    lower-case name) its fields, each with the class of the field, and its
    [unique_together] option. *)
Record ModelState := {
  ms_fields : gmap string string;
  ms_unique_together : list (list string)
}.

Inductive operation :=
  | RemoveField (model_name name : string)
  | AlterField (model_name name field : string)
  | AlterUniqueTogether (name : string) (unique_together : list (list string)).

(** [state_forwards]: a missing model or a missing field to remove is a
    [KeyError], here [None]. *)
Definition state_forwards (o : operation) (st : gmap string ModelState)
  : option (gmap string ModelState) :=
  match o with
  | RemoveField model_name name =>
      ms ← st !! model_name;
      _ ← ms_fields ms !! name;
      Some (<[model_name :=
               {| ms_fields := delete name (ms_fields ms);
                  ms_unique_together := ms_unique_together ms |}]> st)
  | AlterField model_name name field =>
      ms ← st !! model_name;
      Some (<[model_name :=
               {| ms_fields := <[name:=field]> (ms_fields ms);
                  ms_unique_together := ms_unique_together ms |}]> st)
  | AlterUniqueTogether name unique_together =>
      ms ← st !! name;
      Some (<[name :=
               {| ms_fields := ms_fields ms;
                  ms_unique_together := unique_together |}]> st)
  end.

Fixpoint apply_operations (os : list operation) (st : gmap string ModelState)
  : option (gmap string ModelState) :=
  match os with
  | [] => Some st
  | o :: os' => st' ← state_forwards o st; apply_operations os' st'
  end.

Module Migration_0003_auto_20240705_1915.
Definition dependencies : list (string * string) :=
  [("reviews", "0002_auto_20240704_1608")].

Definition operations : list operation :=
  [ RemoveField "title" "rating";
    AlterField "review" "text" "TextField";
    AlterUniqueTogether "review" [["title"; "author"]] ].
End Migration_0003_auto_20240705_1915.

(** ** Histories of the store *)

Inductive op :=
  | SaveUser (pk : option Z) (u : User.t)
  | SaveCategory (pk : option Z) (c : Category.t)
  | SaveGenre (pk : option Z) (g : Genre.t)
  | SaveTitle (pk : option Z) (t : Title.t)
  | SaveGenreTitle (pk : option Z) (x : GenreTitle.t)
  | SaveReview (now : Z) (pk : option Z) (r : Review.t)
  | SaveComment (now : Z) (pk : option Z) (c : Comment.t)
  | DeleteUser (k : Z)
  | DeleteCategory (k : Z)
  | DeleteGenre (k : Z)
  | DeleteTitle (k : Z)
  | DeleteGenreTitle (k : Z)
  | DeleteReview (k : Z)
  | DeleteComment (k : Z).

Definition exec (o : op) (db : DB) : result DB :=
  match o with
  | SaveUser pk u => snd <$> User_save pk u db
  | SaveCategory pk c => snd <$> Category_save pk c db
  | SaveGenre pk g => snd <$> Genre_save pk g db
  | SaveTitle pk t => snd <$> Title_save pk t db
  | SaveGenreTitle pk x => snd <$> GenreTitle_save pk x db
  | SaveReview now pk r => snd <$> Review_save now pk r db
  | SaveComment now pk c => snd <$> Comment_save now pk c db
  | DeleteUser k => ok (User_delete k db)
  | DeleteCategory k => ok (Category_delete k db)
  | DeleteGenre k => ok (Genre_delete k db)
  | DeleteTitle k => ok (Title_delete k db)
  | DeleteGenreTitle k => ok (GenreTitle_delete k db)
  | DeleteReview k => ok (Review_delete k db)
  | DeleteComment k => ok (Comment_delete k db)
  end.

(** An operation that raises leaves the store as it was. *)
Definition run (db : DB) (o : op) : DB :=
  match exec o db with
  | inr db' => db'
  | inl _ => db
  end.

Definition reachable (db : DB) : Prop :=
  ∃ os : list op, db = foldl run empty_db os.

(** ** Invariants of the store *)

(** At most one review per (title, author). *)
Definition unique_review (db : DB) : Prop :=
  ∀ i j r1 r2,
    reviews db !! i = Some r1 → reviews db !! j = Some r2 →
    Review.title r1 = Review.title r2 →
    Review.author r1 = Review.author r2 → i = j.

(** Every reference names a row that is there. *)
Definition no_orphans (db : DB) : Prop :=
  (∀ i t c, titles db !! i = Some t → Title.category t = Some c →
     is_Some (categories db !! c)) ∧
  (∀ i x, genre_titles db !! i = Some x →
     is_Some (titles db !! GenreTitle.title x) ∧
     is_Some (genres db !! GenreTitle.genre x)) ∧
  (∀ i r, reviews db !! i = Some r →
     is_Some (titles db !! Review.title r) ∧
     is_Some (users db !! Review.author r)) ∧
  (∀ i c, comments db !! i = Some c →
     is_Some (reviews db !! Comment.review c) ∧
     is_Some (users db !! Comment.author c)).

(** The state in the middle of a delete: the rows [gu], [gc], [gg], [gt],
    [gr] of users, categories, genres, titles and reviews are gone and the
    rows that reference them are still there. *)
Definition dangling (gu gc gg gt gr : gset Z) (db : DB) : Prop :=
  (∀ i t c, titles db !! i = Some t → Title.category t = Some c →
     c ∈ gc ∨ is_Some (categories db !! c)) ∧
  (∀ i x, genre_titles db !! i = Some x →
     (GenreTitle.title x ∈ gt ∨ is_Some (titles db !! GenreTitle.title x)) ∧
     (GenreTitle.genre x ∈ gg ∨ is_Some (genres db !! GenreTitle.genre x))) ∧
  (∀ i r, reviews db !! i = Some r →
     (Review.title r ∈ gt ∨ is_Some (titles db !! Review.title r)) ∧
     (Review.author r ∈ gu ∨ is_Some (users db !! Review.author r))) ∧
  (∀ i c, comments db !! i = Some c →
     (Comment.review c ∈ gr ∨ is_Some (reviews db !! Comment.review c)) ∧
     (Comment.author c ∈ gu ∨ is_Some (users db !! Comment.author c))).

(** ** Validated histories *)

(** Every stored score is within the declared bounds. *)
Definition scores_in_range `{Constants} (db : DB) : Prop :=
  ∀ i r, reviews db !! i = Some r →
         MIN_SCORE_VALUE ≤ Review.score r ≤ MAX_SCORE_VALUE.

(** An operation preceded by the validation of the instance it saves. *)
Definition exec_clean `{Constants} (current_year : Z) (o : op) (db : DB)
  : result DB :=
  match o with
  | SaveTitle pk t => Title_clean_fields current_year db t;; exec o db
  | SaveReview now pk r => Review_clean_fields current_year db r;; exec o db
  | _ => exec o db
  end.

Definition run_clean `{Constants} (db : DB) (step : Z * op) : DB :=
  match exec_clean step.1 step.2 db with
  | inr db' => db'
  | inl _ => db
  end.

Definition reachable_clean `{Constants} (db : DB) : Prop :=
  ∃ steps : list (Z * op), db = foldl run_clean empty_db steps.

(** ** A small history

    The scenario of the specification, with [MIN_SCORE_VALUE = 1] and
    [MAX_SCORE_VALUE = 10]: one administrator, one category, one genre, one
    title, and what is then written about it. *)
Module Scenario.
Definition policy : Constants :=
  {| MIN_SCORE_VALUE := 1; MAX_SCORE_VALUE := 10; FIELD_MAX_LENGTH := 256 |}.

Definition admin : User.t :=
  {| User.username := "admin"; User.email := "a@x.com"; User.bio := "";
     User.role := "admin"; User.is_superuser := false |}.

Definition reader : User.t :=
  {| User.username := "Zed"; User.email := "z@x.com"; User.bio := "";
     User.role := "user"; User.is_superuser := false |}.

Definition films : Category.t :=
  {| Category.name := "Films"; Category.slug := "films" |}.

Definition drama : Genre.t :=
  {| Genre.name := "Drama"; Genre.slug := "drama" |}.

Definition T1 : Title.t :=
  {| Title.name := "T1"; Title.year := 1999; Title.description := "";
     Title.category := Some 1 |}.

Definition T1_drama : GenreTitle.t :=
  {| GenreTitle.title := 1; GenreTitle.genre := 1 |}.

(** A title of category 1 with every field filled in and the given year. *)
Definition dated (year : Z) : Title.t :=
  {| Title.name := "T0"; Title.year := year;
     Title.description := "an old story"; Title.category := Some 1 |}.

(** A review of title 1 by user 1; [pub_date] is what the caller put on
    the instance. *)
Definition review (score pub_date : Z) : Review.t :=
  {| Review.title := 1; Review.text := "seen it"; Review.author := 1;
     Review.score := score; Review.pub_date := pub_date |}.

Definition comment (pub_date : Z) : Comment.t :=
  {| Comment.review := 1; Comment.text := "agreed"; Comment.author := 1;
     Comment.pub_date := pub_date |}.

Definition setup : list op :=
  [ SaveUser None admin; SaveCategory None films; SaveGenre None drama;
    SaveTitle None T1 ].

Definition catalog : DB := foldl run empty_db setup.

(** The title is linked to the genre, reviewed at time 100 and commented
    at time 150. *)
Definition reviewed : DB :=
  foldl run catalog
    [ SaveGenreTitle None T1_drama; SaveReview 100 None (review 8 5);
      SaveComment 150 None (comment 5) ].

(** The same link saved a second time. *)
Definition linked_twice : DB :=
  foldl run catalog
    [ SaveGenreTitle None T1_drama; SaveGenreTitle None T1_drama ].

(** A review with score 11 saved without validation. *)
Definition unvalidated : DB :=
  foldl run catalog [ SaveReview 100 None (review 11 5) ].

(** The stored review saved again at time 200 from an instance whose
    [pub_date] attribute was set to 7. *)
Definition redated : DB :=
  foldl run reviewed [ SaveReview 200 (Some 1) (review 8 7) ].

Definition two_users : DB :=
  foldl run empty_db [ SaveUser None reader; SaveUser None admin ].

(** The schema before migration 0003, as far as the migration reads it. *)
Definition schema_0002 : gmap string ModelState :=
  {[ "title" :=
       {| ms_fields :=
            {[ "name" := "CharField"; "year" := "PositiveSmallIntegerField";
               "rating" := "IntegerField" ]};
          ms_unique_together := [] |};
     "review" :=
       {| ms_fields := {[ "text" := "CharField"; "score" := "IntegerField" ]};
          ms_unique_together := [] |} ]}.
End Scenario.

(** ** String representations *)

(** [LENGTH_TO_DISPLAY] of [reviews/constants.py], taken as a parameter. *)
Class Display := {
  LENGTH_TO_DISPLAY : Z
}.

(** The slice [s[:n]]: a negative [n] counts from the end, and the stop is
    clipped to the string. *)
Definition slice_to (n : Z) (s : string) : string :=
  let len := Z.of_nat (utf8_length s) in
  let stop := if n <? 0 then Z.max 0 (len + n) else Z.min n len in
  utf8_take (Z.to_nat stop) s.

(** What [s] is to [name] when [s = name[:n]]: a prefix, of the length the
    slice gives, and all of [name] when [name] is short enough. *)
Definition truncated_to (n : Z) (name s : string) : Prop :=
  (∃ rest, name = s +:+ rest) ∧
  (0 ≤ n → Z.of_nat (utf8_length s)
           = Z.min n (Z.of_nat (utf8_length name))) ∧
  (n < 0 → Z.of_nat (utf8_length s)
           = Z.max 0 (Z.of_nat (utf8_length name) + n)) ∧
  (Z.of_nat (utf8_length name) ≤ n → s = name).

(** [BaseCategoryGenreModel.__str__], inherited by both classes. *)
Definition Category_str `{Display} (self : Category.t) : string :=
  slice_to LENGTH_TO_DISPLAY (Category.name self).

Definition Genre_str `{Display} (self : Genre.t) : string :=
  slice_to LENGTH_TO_DISPLAY (Genre.name self).

(** [Title.__str__]. *)
Definition Title_str `{Display} (self : Title.t) : string :=
  slice_to LENGTH_TO_DISPLAY (Title.name self).

(** [User.__str__]. *)
Definition User_str (self : User.t) : string := User.username self.

(** [GenreTitle.__str__]: the two related rows are read through the
    foreign keys and formatted with a space in between; a key that names
    no row raises, here [None]. *)
Definition GenreTitle_str `{Display} (db : DB) (self : GenreTitle.t)
  : option string :=
  t ← titles db !! GenreTitle.title self;
  g ← genres db !! GenreTitle.genre self;
  Some (Title_str t +:+ " " +:+ Genre_str g).

(** ** The role field *)

(** [User.USER_ROLE]: the stored value and its label; a label is given by
    the code points of its characters. *)
Definition USER_ROLE : list (string * list N) :=
  [ (User.USER,
     [1055; 1086; 1083; 1100; 1079; 1086; 1074; 1072; 1090; 1077; 1083;
      1100]%N);
    (User.ADMIN,
     [1040; 1076; 1084; 1080; 1085; 1080; 1089; 1090; 1088; 1072; 1090;
      1086; 1088]%N);
    (User.MODERATOR,
     [1052; 1086; 1076; 1077; 1088; 1072; 1090; 1086; 1088]%N) ].

(** [max(len(role[1]) for role in USER_ROLE)]: the width of the column is
    taken from the labels. *)
Definition role_max_length : nat :=
  max_list ((λ role : string * list N, length role.2) <$> USER_ROLE).

(** Validation of the [role] field: the value must be one of the choices,
    then it must fit [max_length]. *)
Definition User_role_clean (role : string) : result unit :=
  (if bool_decide (role ∈ USER_ROLE.*1) then ok tt
   else raise (ValidationError "role"));;
  if (utf8_length role <=? role_max_length)%nat then ok tt
  else raise (ValidationError "role").

(** ** The other default listings *)

Definition Category_objects_all (db : DB) : list (Z * Category.t) :=
  objects_all Category.get Category.Meta.ordering (categories db).

Definition Genre_objects_all (db : DB) : list (Z * Genre.t) :=
  objects_all Genre.get Genre.Meta.ordering (genres db).

Definition Title_objects_all (db : DB) : list (Z * Title.t) :=
  objects_all Title.get Title.Meta.ordering (titles db).

Definition Review_objects_all (db : DB) : list (Z * Review.t) :=
  objects_all Review.get Review.Meta.ordering (reviews db).

Definition Comment_objects_all (db : DB) : list (Z * Comment.t) :=
  objects_all Comment.get Comment.Meta.ordering (comments db).

(** ** More invariants of the store *)

(** No two rows of a table agree on [fields]. *)
Definition unique_on {A} (get : string → A → value) (fields : list string)
  (tbl : gmap Z A) : Prop :=
  ∀ i j x y, tbl !! i = Some x → tbl !! j = Some y →
             project get fields x = project get fields y → i = j.

(** The fields declared [unique=True]. *)
Definition unique_fields (db : DB) : Prop :=
  unique_on User.get ["username"] (users db) ∧
  unique_on User.get ["email"] (users db) ∧
  unique_on Category.get ["slug"] (categories db) ∧
  unique_on Genre.get ["slug"] (genres db).

(** The two [PositiveSmallIntegerField] columns hold no negative value. *)
Definition columns_in_range (db : DB) : Prop :=
  (∀ i t, titles db !! i = Some t → 0 ≤ Title.year t) ∧
  (∀ i r, reviews db !! i = Some r → 0 ≤ Review.score r).

(** ** A second history

    Two authors, two titles, and a category and a genre that share a
    slug. *)
Module Library.
Definition display : Display := {| LENGTH_TO_DISPLAY := 5 |}.

Definition ann : User.t :=
  {| User.username := "ann"; User.email := "ann@x.com"; User.bio := "";
     User.role := "moderator"; User.is_superuser := false |}.

Definition bob : User.t :=
  {| User.username := "bob"; User.email := "bob@x.com"; User.bio := "";
     User.role := "user"; User.is_superuser := false |}.

Definition ann_again : User.t :=
  {| User.username := "ann"; User.email := "other@x.com"; User.bio := "";
     User.role := "user"; User.is_superuser := false |}.

Definition books : Category.t :=
  {| Category.name := "Books"; Category.slug := "classic" |}.

Definition classic : Genre.t :=
  {| Genre.name := "Classical music"; Genre.slug := "classic" |}.

Definition books_again : Category.t :=
  {| Category.name := "More books"; Category.slug := "classic" |}.

Definition solaris : Title.t :=
  {| Title.name := "Solaris"; Title.year := 1961; Title.description := "";
     Title.category := Some 1 |}.

Definition hamlet : Title.t :=
  {| Title.name := "Hamlet"; Title.year := 1603; Title.description := "";
     Title.category := None |}.

Definition solaris_ru : Title.t :=
  {| Title.name := "Солярис"; Title.year := 1961; Title.description := "";
     Title.category := Some 1 |}.

Definition drama_ru : Genre.t :=
  {| Genre.name := "Драма"; Genre.slug := "drama" |}.

Definition review (title author score : Z) : Review.t :=
  {| Review.title := title; Review.text := "read it"; Review.author := author;
     Review.score := score; Review.pub_date := 0 |}.

Definition comment (review author : Z) : Comment.t :=
  {| Comment.review := review; Comment.text := "so did I";
     Comment.author := author; Comment.pub_date := 0 |}.

Definition history : list op :=
  [ SaveUser None ann; SaveUser None bob;
    SaveCategory None books; SaveGenre None classic;
    SaveTitle None solaris; SaveTitle None hamlet;
    SaveGenreTitle None {| GenreTitle.title := 1; GenreTitle.genre := 1 |};
    SaveReview 30 None (review 1 1 9);
    SaveReview 20 None (review 1 2 7);
    SaveReview 10 None (review 2 2 8);
    SaveComment 40 None (comment 1 2);
    SaveComment 50 None (comment 2 1);
    SaveComment 60 None (comment 3 1) ].

Definition store : DB := foldl run empty_db history.

(** A store whose title and genre have names outside ASCII. *)
Definition store_ru : DB :=
  foldl run empty_db
    [ SaveCategory None books; SaveGenre None drama_ru;
      SaveTitle None solaris_ru;
      SaveGenreTitle None {| GenreTitle.title := 1; GenreTitle.genre := 1 |} ].
End Library.

(** * Proofs *)

(** ** The error monad *)

Lemma bind_inr {A B} (m : result A) (k : A → result B) (b : B) :
  (m ≫= k) = inr b ↔ ∃ a, m = inr a ∧ k a = inr b.
Proof.
  unfold mbind, result_bind. destruct m as [e|a].
  - split; [discriminate | intros (a & Ha & _); discriminate].
  - split; [intros Hk; exists a; auto | intros (a' & Ha & Hk); congruence].
Qed.

Lemma bind_inl {A B} (m : result A) (k : A → result B) (e : error) :
  (m ≫= k) = inl e ↔ m = inl e ∨ ∃ a, m = inr a ∧ k a = inl e.
Proof.
  unfold mbind, result_bind. destruct m as [e'|a].
  - split; [intros [= ->]; by left |].
    intros [[= ->]|(a & Ha & _)]; [reflexivity | discriminate].
  - split; [intros Hk; right; exists a; auto |].
    intros [?|(a' & Ha & Hk)]; [discriminate | congruence].
Qed.

Lemma fmap_inr {A B} (f : A → B) (m : result A) (b : B) :
  f <$> m = inr b ↔ ∃ a, m = inr a ∧ b = f a.
Proof.
  unfold fmap, result_fmap. destruct m as [e|a].
  - split; [discriminate | intros (a & Ha & _); discriminate].
  - split; [intros [= <-]; eauto | intros (a' & [= <-] & ->); reflexivity].
Qed.

(** ** Primary keys *)

Lemma next_pk_above {A} (tbl : gmap Z A) (k : Z) :
  is_Some (tbl !! k) → k < next_pk tbl.
Proof.
  unfold next_pk.
  cut (is_Some (tbl !! k) → k ≤ map_fold (λ k _ m, Z.max k m) 0 tbl);
    [intros Hle Hk; specialize (Hle Hk); lia|].
  revert k.
  apply (map_fold_weak_ind
           (λ r (m : gmap Z A), ∀ k, is_Some (m !! k) → k ≤ r)).
  - intros k [x Hx]. by rewrite lookup_empty in Hx.
  - intros i x m r Hi IH k [y Hy].
    apply lookup_insert_Some in Hy as [[-> _]|[Hne Hy]]; [lia|].
    specialize (IH k (ex_intro _ y Hy)). lia.
Qed.

Lemma next_pk_fresh {A} (tbl : gmap Z A) : tbl !! next_pk tbl = None.
Proof.
  destruct (tbl !! next_pk tbl) as [x|] eqn:Hx; [|done].
  pose proof (next_pk_above tbl (next_pk tbl) (ex_intro _ x Hx)). lia.
Qed.

(** ** save_row *)

(** What a successful [save_row] did: either an update of the existing row
    [k], or an insert at a key that was free. *)
Lemma save_row_inr {A} (pre : bool → A → A) (chk : option Z → A → result unit)
  (pk : option Z) (a : A) (tbl tbl' : gmap Z A) (k : Z) :
  save_row pre chk pk a tbl = inr (k, tbl') →
  (pk = Some k ∧ is_Some (tbl !! k) ∧ chk (Some k) (pre false a) = inr tt ∧
     tbl' = <[k:=pre false a]> tbl) ∨
  (tbl !! k = None ∧ (pk = Some k ∨ pk = None ∧ k = next_pk tbl) ∧
     chk None (pre true a) = inr tt ∧ tbl' = <[k:=pre true a]> tbl).
Proof.
  unfold save_row. intros Hs.
  destruct pk as [k0|].
  - destruct (tbl !! k0) as [x|] eqn:Hk0.
    + apply bind_inr in Hs as ([] & Hc & [= <- <-]). left. eauto.
    + apply bind_inr in Hs as ([] & Hc & [= <- <-]). right. eauto.
  - apply bind_inr in Hs as ([] & Hc & [= <- <-]). right.
    split; [apply next_pk_fresh | eauto].
Qed.

Lemma save_row_lookup {A} (pre : bool → A → A)
  (chk : option Z → A → result unit)
  (pk : option Z) (a : A) (tbl tbl' : gmap Z A) (k : Z) :
  save_row pre chk pk a tbl = inr (k, tbl') →
  (∃ a', tbl' !! k = Some a') ∧ ∀ j, j ≠ k → tbl' !! j = tbl !! j.
Proof.
  intros [(_ & _ & _ & ->)|(_ & _ & _ & ->)]%save_row_inr.
  - split; [rewrite lookup_insert_eq; eauto|].
    intros j Hj. by rewrite lookup_insert_ne.
  - split; [rewrite lookup_insert_eq; eauto|].
    intros j Hj. by rewrite lookup_insert_ne.
Qed.

(** ** The collector *)

Lemma refers_Some (gone : gset Z) (p : Z) :
  refers gone (Some p) = true ↔ p ∈ gone.
Proof. simpl. apply bool_decide_eq_true. Qed.

Lemma refers_Some_false (gone : gset Z) (p : Z) :
  refers gone (Some p) = false ↔ p ∉ gone.
Proof. simpl. apply bool_decide_eq_false. Qed.

Lemma collect_CASCADE_lookup {A} (fk : A → option Z) (clear : A → A)
  (gone : gset Z) (tbl : gmap Z A) (k : Z) (x : A) :
  (collect CASCADE fk clear gone tbl).1 !! k = Some x ↔
  tbl !! k = Some x ∧ refers gone (fk x) = false.
Proof. simpl. by rewrite map_lookup_filter_Some. Qed.

Lemma collect_CASCADE_gone {A} (fk : A → option Z) (clear : A → A)
  (gone : gset Z) (tbl : gmap Z A) (k : Z) :
  k ∈ (collect CASCADE fk clear gone tbl).2 ↔
  ∃ x, tbl !! k = Some x ∧ refers gone (fk x) = true.
Proof.
  simpl. rewrite elem_of_dom. unfold is_Some.
  by setoid_rewrite map_lookup_filter_Some.
Qed.

Lemma collect_SET_NULL_lookup {A} (fk : A → option Z) (clear : A → A)
  (gone : gset Z) (tbl : gmap Z A) (k : Z) :
  (collect SET_NULL fk clear gone tbl).1 !! k =
  (λ x, if refers gone (fk x) then clear x else x) <$> tbl !! k.
Proof. simpl. by rewrite lookup_fmap. Qed.

Lemma cascade_users gu gc gg gt gr db : users (cascade gu gc gg gt gr db) = users db.
Proof. reflexivity. Qed.

Lemma cascade_categories gu gc gg gt gr db :
  categories (cascade gu gc gg gt gr db) = categories db.
Proof. reflexivity. Qed.

Lemma cascade_genres gu gc gg gt gr db :
  genres (cascade gu gc gg gt gr db) = genres db.
Proof. reflexivity. Qed.

(** Titles are never deleted along with something else: a deleted category
    is cleared from the titles that carried it. *)
Lemma cascade_titles gu gc gg gt gr db k :
  titles (cascade gu gc gg gt gr db) !! k =
  (λ t, if refers gc (Title.category t) then Title.set_category None t else t)
    <$> titles db !! k.
Proof. unfold cascade. cbn [titles]. apply collect_SET_NULL_lookup. Qed.

Lemma cascade_genre_titles gu gc gg gt gr db k x :
  genre_titles (cascade gu gc gg gt gr db) !! k = Some x ↔
  genre_titles db !! k = Some x ∧
  (GenreTitle.title x ∉ gt) ∧ (GenreTitle.genre x ∉ gg).
Proof.
  unfold cascade. cbn [genre_titles].
  unfold GenreTitle.genre_on_delete, GenreTitle.title_on_delete,
    Title.category_on_delete.
  rewrite !collect_CASCADE_lookup, !refers_Some_false. cbn [collect snd].
  rewrite not_elem_of_union. split.
  - intros [[? [? _]] ?]. done.
  - intros (? & ? & ?). repeat split; try done; apply not_elem_of_empty.
Qed.

Lemma cascade_reviews gu gc gg gt gr db k r :
  reviews (cascade gu gc gg gt gr db) !! k = Some r ↔
  reviews db !! k = Some r ∧
  (Review.title r ∉ gt) ∧ (Review.author r ∉ gu).
Proof.
  unfold cascade. cbn [reviews].
  unfold Review.author_on_delete, Review.title_on_delete,
    Title.category_on_delete.
  rewrite !collect_CASCADE_lookup, !refers_Some_false. cbn [collect snd].
  rewrite not_elem_of_union. split.
  - intros [[? [? _]] ?]. done.
  - intros (? & ? & ?). repeat split; try done; apply not_elem_of_empty.
Qed.

(** A comment goes when its author goes, when its review is deleted
    directly, or when its review goes along with a title or a user. *)
Lemma cascade_comments gu gc gg gt gr db k c :
  comments (cascade gu gc gg gt gr db) !! k = Some c ↔
  comments db !! k = Some c ∧
  (Comment.author c ∉ gu) ∧ (Comment.review c ∉ gr) ∧
  ∀ r, reviews db !! Comment.review c = Some r →
       (Review.title r ∉ gt) ∧ (Review.author r ∉ gu).
Proof.
  unfold cascade. cbn [comments].
  unfold Comment.author_on_delete, Comment.review_on_delete,
    Review.author_on_delete, Review.title_on_delete, Title.category_on_delete.
  rewrite !collect_CASCADE_lookup, !refers_Some_false.
  rewrite !not_elem_of_union, !collect_CASCADE_gone.
  setoid_rewrite collect_CASCADE_lookup.
  setoid_rewrite refers_Some. setoid_rewrite refers_Some_false.
  cbn [collect snd].
  split.
  - intros ((Hc & (Hgr & H1) & H2) & Hau). repeat split; try done.
    + intros Hin. apply H1. exists r. split; [done|].
      apply elem_of_union. by left.
    + intros Hin.
      destruct (decide (Review.title r ∈ gt)) as [Ht|Ht].
      * apply H1. exists r. split; [done|]. apply elem_of_union. by left.
      * apply H2. exists r. repeat split; [done | | done].
        intros [?|[]%not_elem_of_empty]%elem_of_union. done.
  - intros (Hc & Hau & Hgr & Hr). repeat split; try done.
    + intros (r & Hl & Hin). destruct (Hr r Hl) as [Ht _].
      apply elem_of_union in Hin as [?|[]%not_elem_of_empty]. done.
    + intros (r & (Hl & _) & Hin). destruct (Hr r Hl) as [_ Ha]. done.
Qed.

(** ** Constraints *)

Lemma check_constraints_inr {A} (get : string → A → value)
  (cs : list UniqueConstraint) (self : option Z) (a : A) (tbl : gmap Z A) :
  check_constraints get cs self a tbl = inr tt ↔
  ∀ c, c ∈ cs → ¬ clashes get (uc_fields c) self a tbl.
Proof.
  induction cs as [|c cs IH]; simpl.
  - split; [intros _ c Hc; by apply elem_of_nil in Hc | done].
  - case_bool_decide as Hcl.
    + split; [discriminate|]. intros Hall. destruct (Hall c); [left | done].
    + rewrite IH. split.
      * intros Hall c' [->|Hc']%elem_of_cons; auto.
      * intros Hall c' Hc'. apply Hall. by right.
Qed.

Lemma check_constraints_inl {A} (get : string → A → value)
  (cs : list UniqueConstraint) (self : option Z) (a : A) (tbl : gmap Z A)
  (e : error) :
  check_constraints get cs self a tbl = inl e →
  ∃ c, c ∈ cs ∧ e = IntegrityError (uc_name c) ∧
       clashes get (uc_fields c) self a tbl.
Proof.
  induction cs as [|c cs IH]; simpl; [discriminate|].
  case_bool_decide as Hcl.
  - intros [= <-]. exists c. split; [left | done].
  - intros (c' & Hc' & He & Hcl')%IH. exists c'. split; [by right | done].
Qed.

Lemma Review_clashes (self : option Z) (r : Review.t) (tbl : gmap Z Review.t) :
  clashes Review.get ["title"; "author"] self r tbl ↔
  ∃ k x, tbl !! k = Some x ∧ Some k ≠ self ∧
         Review.title x = Review.title r ∧ Review.author x = Review.author r.
Proof.
  unfold clashes. rewrite map_Exists_lookup. cbn.
  split; intros (k & x & Hk & Hne & Heq); exists k, x;
    (split; [done|]); (split; [done|]).
  - by injection Heq as -> ->.
  - destruct Heq as [-> ->]. done.
Qed.

Lemma check_fk_inr {P} (parent : gmap Z P) (name : string) (k : Z) (u : unit) :
  check_fk parent name k = inr u ↔ is_Some (parent !! k).
Proof.
  unfold check_fk. destruct u. destruct (parent !! k) as [p|].
  - split; eauto.
  - split; [discriminate | by intros [? ?]].
Qed.

Lemma check_fk_null_inr {P} (parent : gmap Z P) (name : string)
  (k : option Z) (u : unit) :
  check_fk_null parent name k = inr u ↔ ∀ c, k = Some c → is_Some (parent !! c).
Proof.
  destruct k as [c|]; simpl.
  - rewrite check_fk_inr. split; [by intros ? ? [= <-] | eauto].
  - destruct u. split; [by intros _ ? | done].
Qed.

Lemma PositiveSmallIntegerField_check_inr (name : string) (v : Z) (u : unit) :
  PositiveSmallIntegerField_check name v = inr u ↔ 0 ≤ v.
Proof.
  unfold PositiveSmallIntegerField_check. destruct u.
  destruct (0 <=? v) eqn:H1; split; try done; try discriminate; lia.
Qed.

(** When the storage layer accepts a review. *)
Lemma Review_check_inr (db : DB) (self : option Z) (r : Review.t) :
  Review_check db self r = inr tt ↔
  0 ≤ Review.score r ∧
  is_Some (titles db !! Review.title r) ∧
  is_Some (users db !! Review.author r) ∧
  ¬ ∃ k x, reviews db !! k = Some x ∧ Some k ≠ self ∧
           Review.title x = Review.title r ∧
           Review.author x = Review.author r.
Proof.
  unfold Review_check. rewrite !bind_inr.
  setoid_rewrite bind_inr. setoid_rewrite bind_inr.
  setoid_rewrite PositiveSmallIntegerField_check_inr.
  setoid_rewrite check_fk_inr.
  setoid_rewrite check_constraints_inr.
  unfold Review.Meta.constraints. rewrite <- Review_clashes.
  split.
  - intros (_ & Hr & _ & Ht & _ & Ha & Hc).
    split; [exact Hr|]. split; [done|]. split; [done|].
    apply (Hc {| uc_fields := ["title"; "author"];
                 uc_name := "unique_review" |}). by left.
  - intros (Hr & Ht & Ha & Hc). exists tt. split; [done|].
    exists tt. split; [done|]. exists tt. split; [done|].
    intros c ->%list_elem_of_singleton. done.
Qed.

Lemma Title_check_inr (db : DB) (self : option Z) (t : Title.t) :
  Title_check db self t = inr tt ↔
  0 ≤ Title.year t ∧
  ∀ c, Title.category t = Some c → is_Some (categories db !! c).
Proof.
  unfold Title_check. rewrite bind_inr.
  setoid_rewrite PositiveSmallIntegerField_check_inr.
  setoid_rewrite check_fk_null_inr.
  split; [by intros (_ & ? & ?) | intros [? ?]; by exists tt].
Qed.

Lemma GenreTitle_check_inr (db : DB) (self : option Z) (x : GenreTitle.t) :
  GenreTitle_check db self x = inr tt ↔
  is_Some (titles db !! GenreTitle.title x) ∧
  is_Some (genres db !! GenreTitle.genre x).
Proof.
  unfold GenreTitle_check. rewrite bind_inr. setoid_rewrite bind_inr.
  setoid_rewrite check_fk_inr.
  split.
  - intros (_ & Ht & _ & Hg & _). done.
  - intros [Ht Hg]. exists tt. split; [done|]. exists tt. done.
Qed.

Lemma Comment_check_inr (db : DB) (self : option Z) (c : Comment.t) :
  Comment_check db self c = inr tt ↔
  is_Some (reviews db !! Comment.review c) ∧
  is_Some (users db !! Comment.author c).
Proof.
  unfold Comment_check. rewrite bind_inr. setoid_rewrite bind_inr.
  setoid_rewrite check_fk_inr.
  split.
  - intros (_ & Ht & _ & Hg & _). done.
  - intros [Ht Hg]. exists tt. split; [done|]. exists tt. done.
Qed.

(** ** save *)

Lemma save_inr {A} (pre : bool → A → A) (chk : option Z → A → result unit)
  (pk : option Z) (a : A) (tbl : gmap Z A) (set : gmap Z A → DB)
  (k : Z) (db' : DB) :
  (x ← save_row pre chk pk a tbl; mret (x.1, set x.2)) = inr (k, db') →
  ∃ add self,
    chk self (pre add a) = inr tt ∧
    db' = set (<[k:=pre add a]> tbl) ∧
    (add = false ∧ self = Some k ∧ pk = Some k ∧ is_Some (tbl !! k) ∨
     add = true ∧ self = None ∧ tbl !! k = None ∧
       (pk = Some k ∨ pk = None ∧ k = next_pk tbl)).
Proof.
  intros ([k' tbl'] & Hs & [= <- <-])%bind_inr.
  apply save_row_inr in Hs as [(-> & Hk & Hc & ->)|(Hk & Hpk & Hc & ->)].
  - exists false, (Some k'). eauto 10.
  - exists true, None. eauto 10.
Qed.

(** ** Referential integrity *)

Lemma cascade_no_orphans gu gc gg gt gr db :
  dangling gu gc gg gt gr db → no_orphans (cascade gu gc gg gt gr db).
Proof.
  intros (H1 & H2 & H3 & H4). unfold no_orphans.
  rewrite cascade_categories, cascade_genres, cascade_users.
  split; [|split; [|split]].
  - intros i t c. rewrite cascade_titles.
    destruct (titles db !! i) as [t0|] eqn:Ht0; [|discriminate].
    intros [= <-] Hc.
    destruct (Title.category t0) as [c0|] eqn:Hc0; simpl in Hc.
    + case_bool_decide as Hin; [discriminate|].
      rewrite Hc0 in Hc. injection Hc as <-.
      destruct (H1 i t0 c0 Ht0 Hc0); done.
    + rewrite Hc0 in Hc. discriminate.
  - intros i x (Hx & Ht & Hg)%cascade_genre_titles.
    destruct (H2 i x Hx) as [[?|[t Hl]] [?|?]]; try done.
    split; [|done]. rewrite cascade_titles, Hl. simpl. eauto.
  - intros i r (Hr & Ht & Ha)%cascade_reviews.
    destruct (H3 i r Hr) as [[?|[t Hl]] [?|?]]; try done.
    split; [|done]. rewrite cascade_titles, Hl. simpl. eauto.
  - intros i c (Hc & Ha & Hgr & Hrv)%cascade_comments.
    destruct (H4 i c Hc) as [[?|[r Hl]] [?|?]]; try done.
    split; [|done]. exists r. apply cascade_reviews.
    destruct (Hrv r Hl). done.
Qed.

Lemma User_delete_no_orphans k db : no_orphans db → no_orphans (User_delete k db).
Proof.
  intros (H1 & H2 & H3 & H4). apply cascade_no_orphans.
  split; [|split; [|split]]; cbn.
  - intros i t c Ht Hc. right. eauto.
  - intros i x Hx. destruct (H2 i x Hx). auto.
  - intros i r Hr. destruct (H3 i r Hr). split; [auto|].
    rewrite lookup_delete_is_Some, elem_of_singleton.
    destruct (decide (Review.author r = k)); auto.
  - intros i c Hc. destruct (H4 i c Hc). split; [auto|].
    rewrite lookup_delete_is_Some, elem_of_singleton.
    destruct (decide (Comment.author c = k)); auto.
Qed.

Lemma Category_delete_no_orphans k db :
  no_orphans db → no_orphans (Category_delete k db).
Proof.
  intros (H1 & H2 & H3 & H4). apply cascade_no_orphans.
  split; [|split; [|split]]; cbn.
  - intros i t c Ht Hc.
    rewrite lookup_delete_is_Some, elem_of_singleton.
    destruct (decide (c = k)); eauto.
  - intros i x Hx. destruct (H2 i x Hx). auto.
  - intros i r Hr. destruct (H3 i r Hr). auto.
  - intros i c Hc. destruct (H4 i c Hc). auto.
Qed.

Lemma Genre_delete_no_orphans k db :
  no_orphans db → no_orphans (Genre_delete k db).
Proof.
  intros (H1 & H2 & H3 & H4). apply cascade_no_orphans.
  split; [|split; [|split]]; cbn.
  - intros i t c Ht Hc. right. eauto.
  - intros i x Hx. destruct (H2 i x Hx). split; [auto|].
    rewrite lookup_delete_is_Some, elem_of_singleton.
    destruct (decide (GenreTitle.genre x = k)); auto.
  - intros i r Hr. destruct (H3 i r Hr). auto.
  - intros i c Hc. destruct (H4 i c Hc). auto.
Qed.

Lemma Title_delete_no_orphans k db :
  no_orphans db → no_orphans (Title_delete k db).
Proof.
  intros (H1 & H2 & H3 & H4). apply cascade_no_orphans.
  split; [|split; [|split]]; cbn.
  - intros i t c [_ Ht]%lookup_delete_Some Hc. right. eauto.
  - intros i x Hx. destruct (H2 i x Hx). split; [|auto].
    rewrite lookup_delete_is_Some, elem_of_singleton.
    destruct (decide (GenreTitle.title x = k)); auto.
  - intros i r Hr. destruct (H3 i r Hr). split; [|auto].
    rewrite lookup_delete_is_Some, elem_of_singleton.
    destruct (decide (Review.title r = k)); auto.
  - intros i c Hc. destruct (H4 i c Hc). auto.
Qed.

Lemma Review_delete_no_orphans k db :
  no_orphans db → no_orphans (Review_delete k db).
Proof.
  intros (H1 & H2 & H3 & H4). apply cascade_no_orphans.
  split; [|split; [|split]]; cbn.
  - intros i t c Ht Hc. right. eauto.
  - intros i x Hx. destruct (H2 i x Hx). auto.
  - intros i r [_ Hr]%lookup_delete_Some. destruct (H3 i r Hr). auto.
  - intros i c Hc. destruct (H4 i c Hc). split; [|auto].
    rewrite lookup_delete_is_Some, elem_of_singleton.
    destruct (decide (Comment.review c = k)); auto.
Qed.

Lemma is_Some_insert {A} (m : gmap Z A) (k j : Z) (a : A) :
  is_Some (m !! j) → is_Some (<[k:=a]> m !! j).
Proof. rewrite lookup_insert_is_Some'. auto. Qed.

Local Hint Resolve is_Some_insert : core.

Lemma exec_no_orphans (o : op) (db db' : DB) :
  exec o db = inr db' → no_orphans db → no_orphans db'.
Proof.
  intros E Hinv. pose proof Hinv as (H1 & H2 & H3 & H4).
  destruct o; simpl in E;
    try (injection E as <-;
         auto using User_delete_no_orphans, Category_delete_no_orphans,
           Genre_delete_no_orphans, Title_delete_no_orphans,
           Review_delete_no_orphans; fail);
    try (apply fmap_inr in E as ([k db''] & E & ->);
         unfold User_save, Category_save, Genre_save, Title_save,
           GenreTitle_save, Review_save, Comment_save in E;
         apply save_inr in E as (add & self & Hc & -> & _)).
  - (* SaveUser *)
    split; [|split; [|split]]; cbn; [done | done | |].
    + intros i r' Hr. destruct (H3 i r' Hr). auto.
    + intros i c' Hr. destruct (H4 i c' Hr). auto.
  - (* SaveCategory *)
    split; [|split; [|split]]; cbn; [| done | done | done].
    intros i t' c' Ht Hcat. eauto.
  - (* SaveGenre *)
    split; [|split; [|split]]; cbn; [done | | done | done].
    intros i x' Hx. destruct (H2 i x' Hx). auto.
  - (* SaveTitle *)
    apply Title_check_inr in Hc as [_ Hc].
    split; [|split; [|split]]; cbn; [| | | done].
    + intros i t' c' [[<- <-]|[_ Ht]]%lookup_insert_Some Hcat; eauto.
    + intros i x' Hx. destruct (H2 i x' Hx). auto.
    + intros i r' Hr. destruct (H3 i r' Hr). auto.
  - (* SaveGenreTitle *)
    apply GenreTitle_check_inr in Hc as [? ?].
    split; [|split; [|split]]; cbn; [done | | done | done].
    intros i x' [[<- <-]|[_ Hx]]%lookup_insert_Some; eauto.
  - (* SaveReview *)
    apply Review_check_inr in Hc as (_ & Ht & Ha & _).
    split; [|split; [|split]]; cbn; [done | done | |].
    + intros i x' [[<- <-]|[_ Hx]]%lookup_insert_Some; eauto.
    + intros i c' Hc'. destruct (H4 i c' Hc'). auto.
  - (* SaveComment *)
    apply Comment_check_inr in Hc as [? ?].
    split; [|split; [|split]]; cbn; [done | done | done |].
    intros i x' [[<- <-]|[_ Hx]]%lookup_insert_Some; eauto.
  - (* DeleteGenreTitle *)
    injection E as <-. unfold GenreTitle_delete.
    split; [|split; [|split]]; cbn; [done | | done | done].
    intros i x [_ Hx]%lookup_delete_Some. eauto.
  - (* DeleteComment *)
    injection E as <-. unfold Comment_delete.
    split; [|split; [|split]]; cbn; [done | done | done |].
    intros i x [_ Hx]%lookup_delete_Some. eauto.
Qed.

Lemma run_no_orphans (db : DB) (o : op) : no_orphans db → no_orphans (run db o).
Proof.
  unfold run. destruct (exec o db) as [e|db'] eqn:E; [done|].
  by apply (exec_no_orphans o db).
Qed.

Lemma empty_no_orphans : no_orphans empty_db.
Proof.
  unfold no_orphans, empty_db; cbn.
  repeat split; intros; by simplify_map_eq.
Qed.

Lemma foldl_run_invariant (P : DB → Prop) :
  (∀ db o, P db → P (run db o)) →
  ∀ os db, P db → P (foldl run db os).
Proof.
  intros Hstep os. induction os as [|o os IH]; intros db Hdb; simpl; auto.
Qed.

Lemma reachable_no_orphans (db : DB) : reachable db → no_orphans db.
Proof.
  intros [os ->].
  apply foldl_run_invariant; auto using run_no_orphans, empty_no_orphans.
Qed.

(** ** One review per (title, author) *)

Lemma filter_unique_review (db db' : DB) :
  (∀ i r, reviews db' !! i = Some r → reviews db !! i = Some r) →
  unique_review db → unique_review db'.
Proof. intros Hsub Hu i j r1 r2 Hi Hj. apply Hu; auto. Qed.

Lemma exec_unique_review (o : op) (db db' : DB) :
  exec o db = inr db' → unique_review db → unique_review db'.
Proof.
  intros E Hu. destruct o; simpl in E;
    try (injection E as <-);
    try (apply fmap_inr in E as ([k db''] & E & ->);
         unfold User_save, Category_save, Genre_save, Title_save,
           GenreTitle_save, Review_save, Comment_save in E;
         apply save_inr in E as (add & self & Hc & -> & Hcase));
    try (exact Hu).
  - (* SaveReview *)
    apply Review_check_inr in Hc as (_ & _ & _ & Hno).
    assert (Hself : ∀ j, j ≠ k → Some j ≠ self).
    { intros j Hj. destruct Hcase as [(_ & -> & _)|(_ & -> & _)]; congruence. }
    intros i j r1 r2. cbn. rewrite !lookup_insert_Some.
    intros [[<- <-]|[Hi Hr1]] [[<- <-]|[Hj Hr2]] Ht Ha.
    + done.
    + destruct Hno. exists j, r2. auto.
    + destruct Hno. exists i, r1. auto.
    + by apply (Hu i j r1 r2).
  - eapply filter_unique_review; [|exact Hu].
    intros i r (? & _)%cascade_reviews. done.
  - eapply filter_unique_review; [|exact Hu].
    intros i r (? & _)%cascade_reviews. done.
  - eapply filter_unique_review; [|exact Hu].
    intros i r (? & _)%cascade_reviews. done.
  - eapply filter_unique_review; [|exact Hu].
    intros i r (? & _)%cascade_reviews. done.
  - eapply filter_unique_review; [|exact Hu].
    intros i r (Hr & _)%cascade_reviews. cbn in Hr.
    by apply lookup_delete_Some in Hr as [_ ?].
Qed.

Lemma run_unique_review (db : DB) (o : op) :
  unique_review db → unique_review (run db o).
Proof.
  unfold run. destruct (exec o db) as [e|db'] eqn:E; [done|].
  by apply (exec_unique_review o db).
Qed.

Lemma empty_unique_review : unique_review empty_db.
Proof. intros i j r1 r2 Hi. cbn in Hi. by rewrite lookup_empty in Hi. Qed.

Lemma reachable_unique_review (db : DB) : reachable db → unique_review db.
Proof.
  intros [os ->].
  apply foldl_run_invariant; auto using run_unique_review, empty_unique_review.
Qed.

(** ** The claims *)

Lemma Review_pre_save_fields now add r :
  Review.title (Review_pre_save now add r) = Review.title r ∧
  Review.author (Review_pre_save now add r) = Review.author r ∧
  Review.score (Review_pre_save now add r) = Review.score r ∧
  Review.text (Review_pre_save now add r) = Review.text r.
Proof. done. Qed.

(** A row that repeats the (title, author) of another row is refused by
    the storage layer, and by the uniqueness constraint itself when the
    row is otherwise storable. *)
Lemma Review_check_clash (db : DB) (self : option Z) (r r0 : Review.t) (k0 : Z) :
  reviews db !! k0 = Some r0 → Some k0 ≠ self →
  Review.title r0 = Review.title r → Review.author r0 = Review.author r →
  ∃ c, Review_check db self r = inl (IntegrityError c) ∧
       (0 ≤ Review.score r →
        is_Some (titles db !! Review.title r) →
        is_Some (users db !! Review.author r) → c = "unique_review").
Proof.
  intros Hk0 Hne Ht Ha. unfold Review_check.
  destruct (PositiveSmallIntegerField_check "score" (Review.score r))
    as [e|[]] eqn:E1.
  { unfold PositiveSmallIntegerField_check in E1.
    destruct (0 <=? Review.score r) eqn:Hr; [done|].
    injection E1 as <-. eexists. split; [reflexivity|].
    intros Hs. lia. }
  destruct (check_fk (titles db) "title" (Review.title r)) as [e|[]] eqn:E2.
  { unfold check_fk in E2. destruct (titles db !! _) eqn:Hl; [done|].
    injection E2 as <-. eexists. split; [reflexivity|].
    intros _ [? ?]. congruence. }
  destruct (check_fk (users db) "author" (Review.author r)) as [e|[]] eqn:E3.
  { unfold check_fk in E3. destruct (users db !! _) eqn:Hl; [done|].
    injection E3 as <-. eexists. split; [reflexivity|].
    intros _ _ [? ?]. congruence. }
  cbn. case_bool_decide as Hcl.
  - eexists. split; [reflexivity | done].
  - destruct Hcl. apply Review_clashes. eauto 10.
Qed.

Lemma Review_save_clash (db : DB) (now : Z) (pk : option Z) (r r0 : Review.t)
  (k0 : Z) :
  reviews db !! k0 = Some r0 → Some k0 ≠ pk →
  Review.title r0 = Review.title r → Review.author r0 = Review.author r →
  ∃ c, Review_save now pk r db = inl (IntegrityError c) ∧
       (0 ≤ Review.score r →
        is_Some (titles db !! Review.title r) →
        is_Some (users db !! Review.author r) → c = "unique_review").
Proof.
  intros Hk0 Hpk Ht Ha. unfold Review_save, save_row.
  destruct pk as [k|]; [destruct (reviews db !! k) eqn:Hk|].
  - destruct (Review_check_clash db (Some k) (Review_pre_save now false r)
                r0 k0 Hk0 Hpk Ht Ha) as (c & -> & Hc).
    exists c. done.
  - destruct (Review_check_clash db None (Review_pre_save now true r)
                r0 k0 Hk0 ltac:(done) Ht Ha) as (c & -> & Hc).
    exists c. done.
  - destruct (Review_check_clash db None (Review_pre_save now true r)
                r0 k0 Hk0 ltac:(done) Ht Ha) as (c & -> & Hc).
    exists c. done.
Qed.

(** Migration 0003 leaves [review] with the (title, author) pair as its
    [unique_together]. *)
Lemma Migration_0003_unique_together (st st' : gmap string ModelState) :
  apply_operations Migration_0003_auto_20240705_1915.operations st = Some st' →
  ms_unique_together <$> st' !! "review" = Some [["title"; "author"]].
Proof.
  unfold Migration_0003_auto_20240705_1915.operations. cbn. intros Happ.
  destruct (st !! "title") as [ms0|]; [|discriminate]. cbn in Happ.
  destruct (ms_fields ms0 !! "rating") as [f|]; [|discriminate].
  cbn in Happ. rewrite lookup_insert_ne in Happ by done.
  destruct (st !! "review") as [ms1|]; [|discriminate].
  cbn in Happ. rewrite lookup_insert_eq in Happ. cbn in Happ.
  injection Happ as <-. by rewrite lookup_insert_eq.
Qed.

(** C1.  In every store that a history of saves and deletes produces, no
    two reviews have the same title and author.  Saving a review, as a new
    row or over another row, with the title and author of a stored review
    is refused by the storage layer with an integrity error, the one of
    constraint [unique_review] whenever the score lies between 0 and 32767,
    and the store stays as it was. *)
Theorem Review_unique_per_title_author (db : DB) :
  reachable db →
  unique_review db ∧
  ∀ (now : Z) (pk : option Z) (r r0 : Review.t) (k0 : Z),
    reviews db !! k0 = Some r0 → pk ≠ Some k0 →
    Review.title r0 = Review.title r → Review.author r0 = Review.author r →
    (∃ c, Review_save now pk r db = inl (IntegrityError c) ∧
          (0 ≤ Review.score r ≤ 32767 → c = "unique_review")) ∧
    run db (SaveReview now pk r) = db ∧
    reviews (run db (SaveReview now pk r)) !! k0 = Some r0.
Proof.
  intros Hre. split; [by apply reachable_unique_review|].
  intros now pk r r0 k0 Hk0 Hpk Ht Ha.
  destruct (Review_save_clash db now pk r r0 k0) as (c & Hs & Hc);
    [done | congruence | done | done |].
  assert (Hrun : run db (SaveReview now pk r) = db).
  { unfold run. cbn. by rewrite Hs. }
  split; [|by rewrite Hrun].
  exists c. split; [done|]. intros Hsc. apply Hc; [lia| |].
  - destruct (reachable_no_orphans db Hre) as (_ & _ & H3 & _).
    rewrite <- Ht. by destruct (H3 k0 r0 Hk0).
  - destruct (reachable_no_orphans db Hre) as (_ & _ & H3 & _).
    rewrite <- Ha. by destruct (H3 k0 r0 Hk0).
Qed.

(** C1, on the scenario: the second review of title 1 by user 1 is
    refused and the store is left as it was. *)
Lemma Review_unique_per_title_author_witness :
  reachable Scenario.reviewed ∧
  run Scenario.reviewed (SaveReview 200 None (Scenario.review 5 0))
    = Scenario.reviewed.
Proof.
  assert (Hre : reachable Scenario.reviewed).
  { exists (Scenario.setup ++
            [ SaveGenreTitle None Scenario.T1_drama;
              SaveReview 100 None (Scenario.review 8 5);
              SaveComment 150 None (Scenario.comment 5) ]).
    unfold Scenario.reviewed, Scenario.catalog. by rewrite foldl_app. }
  split; [exact Hre|].
  destruct (Review_unique_per_title_author Scenario.reviewed Hre)
    as [_ Hsave].
  destruct (Hsave 200 None (Scenario.review 5 0)
              (Review_pre_save 100 true (Scenario.review 8 5)) 1)
    as (_ & Hrun & _).
  - vm_compute. reflexivity.
  - discriminate.
  - reflexivity.
  - reflexivity.
  - exact Hrun.
Defined.

Lemma run_validators_score `{Constants} (current_year v : Z) :
  run_validators current_year Review.score_validators v = ok tt ↔
  MIN_SCORE_VALUE ≤ v ≤ MAX_SCORE_VALUE.
Proof.
  unfold Review.score_validators. cbn.
  destruct (v <? MIN_SCORE_VALUE) eqn:E1; cbn.
  - split; [discriminate | lia].
  - destruct (MAX_SCORE_VALUE <? v) eqn:E2; cbn.
    + split; [discriminate | lia].
    + split; [lia | done].
Qed.

Lemma run_validators_inl (current_year : Z) (vs : list validator) (v : Z)
  (e : error) :
  run_validators current_year vs v = inl e → ∃ f, e = ValidationError f.
Proof.
  induction vs as [|x vs IH]; cbn; [discriminate|].
  intros [Hx|(u & _ & Hvs)]%bind_inl; [|auto].
  destruct x; cbn in Hx; unfold validate_year in Hx;
    repeat case_match; try discriminate; injection Hx as <-; eauto.
Qed.

Lemma Review_save_lookup (now : Z) (pk : option Z) (r : Review.t)
  (db db' : DB) (k : Z) :
  Review_save now pk r db = inr (k, db') →
  (∃ add, reviews db' !! k = Some (Review_pre_save now add r)) ∧
  ∀ j, j ≠ k → reviews db' !! j = reviews db !! j.
Proof.
  unfold Review_save. intros (add & self & _ & -> & _)%save_inr. cbn. split.
  - exists add. by rewrite lookup_insert_eq.
  - intros j Hj. by rewrite lookup_insert_ne.
Qed.

(** *** What clean_fields reports *)

Lemma raise_if_any_inr (fields : list string) :
  raise_if_any fields = inr tt ↔ fields = [].
Proof. destruct fields; cbn; split; done. Qed.

Lemma raise_if_any_inl (fields : list string) (e : error) :
  raise_if_any fields = inl e → e = ValidationErrorDict fields.
Proof. destruct fields; cbn; [discriminate | by intros [= <-]]. Qed.

Lemma elem_of_fk_error {P} (parent : gmap Z P) (name f : string) (k : Z) :
  f ∈ fk_error parent name k ↔ f = name ∧ parent !! k = None.
Proof.
  unfold fk_error. destruct (parent !! k).
  - rewrite elem_of_nil. split; [done | by intros [_ ?]].
  - rewrite list_elem_of_singleton. split; [done | by intros [? _]].
Qed.

Lemma elem_of_blank_error (name value f : string) :
  f ∈ blank_error name value ↔ f = name ∧ value = "".
Proof.
  unfold blank_error. case_decide.
  - rewrite list_elem_of_singleton. split; [done | by intros [? _]].
  - rewrite elem_of_nil. split; [done | by intros [_ ?]].
Qed.

Lemma elem_of_validators_error (current_year : Z) (vs : list validator)
  (name f : string) (v : Z) :
  f ∈ validators_error current_year vs name v ↔
  f = name ∧ is_ok (run_validators current_year vs v) = false.
Proof.
  unfold validators_error. destruct (is_ok _).
  - rewrite elem_of_nil. split; [done | by intros [_ ?]].
  - rewrite list_elem_of_singleton. split; [done | by intros [? _]].
Qed.

Lemma elem_of_max_length_error (name f : string) (max_length : Z)
  (value : string) :
  f ∈ max_length_error name max_length value ↔
  f = name ∧ (value = "" ∨ max_length < Z.of_nat (utf8_length value)).
Proof.
  unfold max_length_error. case_decide as Hv.
  - rewrite list_elem_of_singleton. split; [auto | by intros [? _]].
  - destruct (max_length <? Z.of_nat (utf8_length value)) eqn:E.
    + rewrite list_elem_of_singleton.
      split; [intros ->; split; [done | right; lia] | by intros [? _]].
    + rewrite elem_of_nil. split; [done|]. intros [_ [?|?]]; [done | lia].
Qed.

Lemma nil_no_elem (l : list string) : l = [] ↔ ∀ f, f ∉ l.
Proof.
  split; [intros -> f; apply not_elem_of_nil|].
  destruct l as [|x l]; [done|]. intros Hall. destruct (Hall x). by left.
Qed.

Lemma is_ok_score_validators `{Constants} (current_year v : Z) :
  is_ok (run_validators current_year Review.score_validators v) = false ↔
  ¬ (MIN_SCORE_VALUE ≤ v ≤ MAX_SCORE_VALUE).
Proof.
  rewrite <- (run_validators_score current_year v).
  destruct (run_validators _ _ _) as [e|[]]; cbn; split; try done.
Qed.

Lemma Review_field_errors_score `{Constants} (current_year : Z) (db : DB)
  (r : Review.t) :
  "score" ∈ Review_field_errors current_year db r ↔
  ¬ (MIN_SCORE_VALUE ≤ Review.score r ≤ MAX_SCORE_VALUE).
Proof.
  unfold Review_field_errors.
  rewrite !elem_of_app, !elem_of_fk_error, elem_of_blank_error,
    elem_of_validators_error, is_ok_score_validators.
  split; [|auto 10].
  intros [[[=] _]|[[[=] _]|[[[=] _]|[_ Hout]]]]. exact Hout.
Qed.

Lemma Review_field_errors_nil `{Constants} (current_year : Z) (db : DB)
  (r : Review.t) :
  Review_field_errors current_year db r = [] ↔
  MIN_SCORE_VALUE ≤ Review.score r ≤ MAX_SCORE_VALUE ∧
  Review.text r ≠ "" ∧
  is_Some (titles db !! Review.title r) ∧
  is_Some (users db !! Review.author r).
Proof.
  rewrite nil_no_elem. unfold Review_field_errors.
  setoid_rewrite elem_of_app. setoid_rewrite elem_of_app.
  setoid_rewrite elem_of_app.
  setoid_rewrite elem_of_fk_error. setoid_rewrite elem_of_blank_error.
  setoid_rewrite elem_of_validators_error.
  setoid_rewrite is_ok_score_validators.
  rewrite <- !not_eq_None_Some. split.
  - intros Hall. split; [|split; [|split]].
    + destruct (decide (MIN_SCORE_VALUE ≤ Review.score r ≤ MAX_SCORE_VALUE))
        as [Hin|Hout]; [done|]. destruct (Hall "score"). auto 10.
    + intros Ht. destruct (Hall "text"). auto 10.
    + intros Ht. destruct (Hall "title"). auto 10.
    + intros Ht. destruct (Hall "author"). auto 10.
  - intros (Hs & Hx & Ht & Ha) f [[_ ?]|[[_ ?]|[[_ ?]|[_ ?]]]]; done.
Qed.

Lemma exec_clean_scores_in_range `{Constants} (current_year : Z) (o : op)
  (db db' : DB) :
  exec_clean current_year o db = inr db' →
  scores_in_range db → scores_in_range db'.
Proof.
  intros E Hin.
  assert (Hsub : ∀ d : DB,
            (∀ i r, reviews d !! i = Some r → reviews db !! i = Some r) →
            scores_in_range d).
  { intros d Hd i r Hr. apply (Hin i). auto. }
  destruct o; cbn [exec_clean] in E;
    [ | | | apply bind_inr in E as ([] & _ & E) |
      | apply bind_inr in E as ([] & Hv & E) | ..];
    cbn [exec] in E.
  1-5, 7: apply fmap_inr in E as ([k db''] & E & ->);
    unfold User_save, Category_save, Genre_save, Title_save,
      GenreTitle_save, Comment_save in E;
    apply save_inr in E as (add & self & _ & -> & _);
    apply Hsub; cbn; done.
  - (* SaveReview *)
    apply fmap_inr in E as ([k db''] & E & ->).
    apply raise_if_any_inr, Review_field_errors_nil in Hv as [Hv _].
    apply Review_save_lookup in E as [[add Hk] Hother].
    intros i r' Hi. cbn in Hi. destruct (decide (i = k)) as [->|Hne].
    + rewrite Hk in Hi. injection Hi as <-. exact Hv.
    + rewrite Hother in Hi by done. by apply (Hin i).
  - injection E as <-. apply Hsub. by intros i r' (Hr & _)%cascade_reviews.
  - injection E as <-. apply Hsub. by intros i r' (Hr & _)%cascade_reviews.
  - injection E as <-. apply Hsub. by intros i r' (Hr & _)%cascade_reviews.
  - injection E as <-. apply Hsub. by intros i r' (Hr & _)%cascade_reviews.
  - injection E as <-. apply Hsub. done.
  - (* DeleteReview *)
    injection E as <-.
    apply Hsub. intros i r' (Hr & _)%cascade_reviews. cbn in Hr.
    by apply lookup_delete_Some in Hr as [_ ?].
  - injection E as <-. apply Hsub. done.
Qed.

(** C2, as amended.  Field validation of a review reports an error on
    [score] exactly when the score lies outside
    [MIN_SCORE_VALUE, MAX_SCORE_VALUE], and accepts the review exactly when
    the score lies within, the text is not blank and the title and the
    author are stored.  A save preceded by validation fails with a
    validation error naming [score], before the store is touched, when the
    score is outside the range; the review it stores otherwise has the
    score within the range, and in every store produced by a history of
    validated saves and of deletes all scores are within it. *)
Theorem Review_score_checked_by_validation `{Constants}
  (current_year now : Z) (pk : option Z) (r : Review.t) (db : DB) :
  ("score" ∈ Review_field_errors current_year db r ↔
     ¬ (MIN_SCORE_VALUE ≤ Review.score r ≤ MAX_SCORE_VALUE)) ∧
  (Review_clean_fields current_year db r = ok tt ↔
     MIN_SCORE_VALUE ≤ Review.score r ≤ MAX_SCORE_VALUE ∧
     Review.text r ≠ "" ∧
     is_Some (titles db !! Review.title r) ∧
     is_Some (users db !! Review.author r)) ∧
  (¬ (MIN_SCORE_VALUE ≤ Review.score r ≤ MAX_SCORE_VALUE) →
     (∃ fields, Review_clean_save current_year now pk r db
                  = inl (ValidationErrorDict fields) ∧
                "score" ∈ fields) ∧
     run_clean db (current_year, SaveReview now pk r) = db) ∧
  (∀ k db', Review_clean_save current_year now pk r db = inr (k, db') →
     ∃ r', reviews db' !! k = Some r' ∧ Review.score r' = Review.score r ∧
           MIN_SCORE_VALUE ≤ Review.score r' ≤ MAX_SCORE_VALUE) ∧
  (reachable_clean db → scores_in_range db).
Proof.
  split; [apply Review_field_errors_score|].
  split; [unfold Review_clean_fields, ok;
          rewrite raise_if_any_inr; apply Review_field_errors_nil|].
  split; [|split].
  - intros Hout. unfold run_clean, Review_clean_save, exec_clean.
    cbn [fst snd].
    destruct (Review_clean_fields current_year db r) as [e|[]] eqn:E.
    + apply raise_if_any_inl in E as ->. cbn. split; [|done].
      eexists. split; [reflexivity|]. by apply Review_field_errors_score.
    + apply raise_if_any_inr, Review_field_errors_nil in E as [Hin _]. done.
  - intros k db' ([] & Hv & Hs)%bind_inr.
    apply raise_if_any_inr, Review_field_errors_nil in Hv as [Hv _].
    apply Review_save_lookup in Hs as [[add Hk] _]. eauto.
  - intros [steps ->]. revert steps.
    cut (∀ steps d, scores_in_range d → scores_in_range (foldl run_clean d steps)).
    { intros Hcut steps. apply Hcut. intros i r' Hi.
      cbn in Hi. by rewrite lookup_empty in Hi. }
    intros steps. induction steps as [|[cy o] steps IH]; intros d Hd; [done|].
    cbn [foldl]. apply IH. unfold run_clean. cbn [fst snd].
    destruct (exec_clean cy o d) as [e|d'] eqn:E; [done|].
    by apply (exec_clean_scores_in_range cy o d).
Qed.

(** C2, on the scenario: with bounds 1 and 10 a validated save of a review
    with score 11 fails with a validation error that names [score]. *)
Lemma Review_score_checked_by_validation_witness :
  ¬ (1 ≤ 11 ≤ 10) ∧
  ∃ fields, @Review_clean_save Scenario.policy 2024 100 None
              (Scenario.review 11 5) Scenario.catalog
              = inl (ValidationErrorDict fields) ∧
            "score" ∈ fields.
Proof.
  split; [lia|].
  destruct (@Review_score_checked_by_validation Scenario.policy 2024 100 None
              (Scenario.review 11 5) Scenario.catalog)
    as (_ & _ & Hout & _).
  destruct Hout as [Hfail _]; [cbn; lia | exact Hfail].
Defined.

(** C2 as stated fails: [save] does not run the validators.  With bounds 1
    and 10, a review with score 11, which field validation rejects for its
    score alone, is accepted by [save], and the store reached this way
    holds a review whose score is 11. *)
Lemma Review_score_unchecked_by_save :
  @Review_clean_fields Scenario.policy 2024 Scenario.catalog
    (Scenario.review 11 5) = inl (ValidationErrorDict ["score"]) ∧
  is_ok (Review_save 100 None (Scenario.review 11 5) Scenario.catalog) = true ∧
  reachable Scenario.unvalidated ∧
  Review.score <$> reviews Scenario.unvalidated !! 1 = Some 11 ∧
  ¬ (@MIN_SCORE_VALUE Scenario.policy ≤ 11 ≤ @MAX_SCORE_VALUE Scenario.policy).
Proof.
  split; [vm_compute; reflexivity|]. split; [vm_compute; reflexivity|].
  split; [|split; [vm_compute; reflexivity | cbn; lia]].
  exists (Scenario.setup ++ [SaveReview 100 None (Scenario.review 11 5)]).
  unfold Scenario.unvalidated, Scenario.catalog. by rewrite foldl_app.
Qed.

Lemma save_row_is_ok {A} (pre : bool → A → A)
  (chk : option Z → A → result unit) (pk : option Z) (a : A)
  (tbl : gmap Z A) (c : result unit) :
  (∀ self add, chk self (pre add a) = c) →
  is_ok (save_row pre chk pk a tbl) = is_ok c.
Proof.
  intros Hc. unfold save_row.
  destruct pk as [k|]; [destruct (tbl !! k)|]; rewrite Hc; by destruct c.
Qed.

Lemma is_ok_year_validators (current_year v : Z) :
  is_ok (run_validators current_year Title.year_validators v) = false ↔
  current_year < v.
Proof.
  unfold Title.year_validators. cbn. unfold validate_year.
  destruct (current_year <? v) eqn:E; cbn; split; try done; lia.
Qed.

Lemma Title_field_errors_year `{Constants} (current_year : Z) (db : DB)
  (t : Title.t) :
  "year" ∈ Title_field_errors current_year db t ↔ current_year < Title.year t.
Proof.
  unfold Title_field_errors.
  rewrite !elem_of_app, elem_of_max_length_error, elem_of_blank_error,
    elem_of_validators_error, is_ok_year_validators.
  split; [|auto 10].
  intros [[[=] _]|[[_ ?]|[[[=] _]|Hc]]]; [done|].
  destruct (Title.category t) as [c|].
  - by apply elem_of_fk_error in Hc as [[=] _].
  - by apply list_elem_of_singleton in Hc.
Qed.

Lemma Title_field_errors_nil `{Constants} (current_year : Z) (db : DB)
  (t : Title.t) :
  Title_field_errors current_year db t = [] ↔
  Title.name t ≠ "" ∧
  Z.of_nat (utf8_length (Title.name t)) ≤ FIELD_MAX_LENGTH ∧
  Title.year t ≤ current_year ∧
  Title.description t ≠ "" ∧
  ∃ c, Title.category t = Some c ∧ is_Some (categories db !! c).
Proof.
  unfold Title_field_errors. rewrite !app_nil.
  assert (H1 : max_length_error "name" FIELD_MAX_LENGTH (Title.name t) = [] ↔
               Title.name t ≠ "" ∧
               Z.of_nat (utf8_length (Title.name t)) ≤ FIELD_MAX_LENGTH).
  { unfold max_length_error. case_decide as Hn.
    - split; [done | by intros [? _]].
    - destruct (FIELD_MAX_LENGTH <? _) eqn:E.
      + split; [done | lia].
      + split; [intros _; split; [done | lia] | done]. }
  assert (H2 : validators_error current_year Title.year_validators "year"
                 (Title.year t) = [] ↔ Title.year t ≤ current_year).
  { pose proof (is_ok_year_validators current_year (Title.year t)) as Hy.
    unfold validators_error. destruct (is_ok _).
    - split; [intros _|done].
      destruct (decide (current_year < Title.year t)) as [Hlt|]; [|lia].
      by apply Hy in Hlt.
    - split; [done|]. intros Hle. assert (current_year < Title.year t); [|lia].
      by apply Hy. }
  assert (H3 : blank_error "description" (Title.description t) = [] ↔
               Title.description t ≠ "").
  { unfold blank_error. case_decide; split; done. }
  rewrite H1, H2, H3.
  destruct (Title.category t) as [c|].
  - unfold fk_error. destruct (categories db !! c) as [x|] eqn:Hc.
    + split; [|tauto]. intros ([? ?] & ? & ? & _).
      repeat split; try done. exists c. eauto.
    + split; [by intros (_ & _ & _ & ?)|].
      intros (_ & _ & _ & _ & c' & [= <-] & [? ?]). congruence.
  - split; [by intros (_ & _ & _ & ?)|].
    by intros (_ & _ & _ & _ & c' & ? & _).
Qed.

(** C3, as amended.  [validate_year] fails with a validation error exactly
    when the value is greater than the current year, so validation of a
    title reports its [year] exactly then and sets no lower bound.  The
    lower bound comes with the column: the year is a
    [PositiveSmallIntegerField], and a title that validation accepts is
    stored exactly when its year is not negative. *)
Theorem validate_year_and_Title_year `{Constants} (current_year : Z)
  (pk : option Z) (t : Title.t) (db : DB) :
  (∀ value, validate_year current_year value = inl (ValidationError "year") ↔
            current_year < value) ∧
  (∀ value, validate_year current_year value = ok tt ↔
            value ≤ current_year) ∧
  ("year" ∈ Title_field_errors current_year db t ↔
     current_year < Title.year t) ∧
  (Title_clean_fields current_year db t = ok tt ↔
     Title.name t ≠ "" ∧
     Z.of_nat (utf8_length (Title.name t)) ≤ FIELD_MAX_LENGTH ∧
     Title.year t ≤ current_year ∧
     Title.description t ≠ "" ∧
     ∃ c, Title.category t = Some c ∧ is_Some (categories db !! c)) ∧
  (is_ok (Title_clean_save current_year pk t db) = true ↔
     Title_clean_fields current_year db t = ok tt ∧ 0 ≤ Title.year t) ∧
  (Title_clean_fields current_year db t = ok tt → Title.year t < 0 →
     Title_clean_save current_year pk t db = inl (IntegrityError "year")).
Proof.
  assert (Hclean : Title_clean_fields current_year db t = ok tt ↔
     Title.name t ≠ "" ∧
     Z.of_nat (utf8_length (Title.name t)) ≤ FIELD_MAX_LENGTH ∧
     Title.year t ≤ current_year ∧
     Title.description t ≠ "" ∧
     ∃ c, Title.category t = Some c ∧ is_Some (categories db !! c)).
  { unfold Title_clean_fields, ok. rewrite raise_if_any_inr.
    apply Title_field_errors_nil. }
  assert (His : is_ok (Title_save pk t db) = is_ok (Title_check db None t)).
  { unfold Title_save.
    rewrite <- (save_row_is_ok (λ _ x, x) (Title_check db) pk t (titles db)
                  (Title_check db None t)) by done.
    by destruct (save_row _ _ _ _ _). }
  split; [|split; [|split; [|split; [exact Hclean|split]]]].
  - intros value. unfold validate_year.
    destruct (current_year <? value) eqn:E; split; try done; lia.
  - intros value. unfold validate_year.
    destruct (current_year <? value) eqn:E; split; try done; lia.
  - apply Title_field_errors_year.
  - unfold Title_clean_save. pose proof (proj1 Hclean) as Hcat.
    destruct (Title_clean_fields current_year db t) as [e|[]] eqn:E.
    + split; [discriminate | by intros [? _]].
    + change (is_ok (Title_save pk t db) = true ↔ inr tt = ok tt ∧
              0 ≤ Title.year t).
      rewrite His.
      destruct (Hcat ltac:(first [exact E | reflexivity]))
        as (_ & _ & _ & _ & c & Hc & Hex).
      destruct (Title_check db None t) as [e|[]] eqn:Hchk.
      * split; [discriminate|]. intros [_ Hy].
        assert (Hok : Title_check db None t = inr tt).
        { apply Title_check_inr. split; [done|]. intros c' Hc'. congruence. }
        congruence.
      * apply Title_check_inr in Hchk as [Hy _]. done.
  - intros Hok Hneg. unfold Title_clean_save. rewrite Hok.
    change (Title_save pk t db = inl (IntegrityError "year")).
    unfold Title_save, save_row, Title_check, PositiveSmallIntegerField_check.
    assert ((0 <=? Title.year t) = false) as -> by lia.
    destruct pk as [k|]; [destruct (titles db !! k)|]; reflexivity.
Qed.

(** C3 as stated fails on the lower bound: in 2024 the year -1 passes
    [validate_year] and does not exceed the current year, and a title
    carrying it, with every other field in order, passes validation; yet
    the title is refused, by the check of its column. *)
Lemma Title_year_lower_bound :
  validate_year 2024 (-1) = ok tt ∧ -1 ≤ 2024 ∧
  @Title_clean_fields Scenario.policy 2024 Scenario.catalog
    (Scenario.dated (-1)) = ok tt ∧
  @Title_clean_save Scenario.policy 2024 None (Scenario.dated (-1))
    Scenario.catalog = inl (IntegrityError "year").
Proof.
  split; [reflexivity|]. split; [lia|].
  split; vm_compute; reflexivity.
Qed.

(** C3, on the scenario: a title of 1999 with every field in order is
    validated and stored in 2024. *)
Lemma validate_year_and_Title_year_witness :
  @Title_clean_fields Scenario.policy 2024 Scenario.catalog
    (Scenario.dated 1999) = ok tt ∧
  is_ok (@Title_clean_save Scenario.policy 2024 None (Scenario.dated 1999)
           Scenario.catalog) = true.
Proof.
  assert (Hok : @Title_clean_fields Scenario.policy 2024 Scenario.catalog
                  (Scenario.dated 1999) = ok tt) by (vm_compute; reflexivity).
  split; [exact Hok|].
  destruct (@validate_year_and_Title_year Scenario.policy 2024 None
              (Scenario.dated 1999) Scenario.catalog)
    as (_ & _ & _ & _ & Hacc & _).
  apply Hacc. split; [exact Hok | cbn; lia].
Defined.

(** C4.  Deleting a title removes its row, removes exactly the reviews that
    reference it and exactly the comments whose review is one of those;
    what remains has no review of the deleted title and no comment on a
    removed review, and a store without orphans stays without orphans. *)
Theorem Title_delete_cascades (db : DB) (k : Z) :
  titles (Title_delete k db) !! k = None ∧
  (∀ i r, reviews (Title_delete k db) !! i = Some r ↔
          reviews db !! i = Some r ∧ Review.title r ≠ k) ∧
  (∀ i c, comments (Title_delete k db) !! i = Some c ↔
          comments db !! i = Some c ∧
          ∀ r, reviews db !! Comment.review c = Some r → Review.title r ≠ k) ∧
  (no_orphans db →
     no_orphans (Title_delete k db) ∧
     ∀ i c, comments (Title_delete k db) !! i = Some c →
       ∃ r, reviews (Title_delete k db) !! Comment.review c = Some r ∧
            Review.title r ≠ k).
Proof.
  assert (Hrv : ∀ i r, reviews (Title_delete k db) !! i = Some r ↔
                       reviews db !! i = Some r ∧ Review.title r ≠ k).
  { intros i r. unfold Title_delete. rewrite cascade_reviews. cbn.
    rewrite elem_of_singleton. split; [by intros (? & ? & _)|].
    intros [? ?]. split; [done|]. split; [done|]. apply not_elem_of_empty. }
  split; [|split; [exact Hrv|split]].
  - unfold Title_delete. rewrite cascade_titles. cbn.
    by rewrite lookup_delete_eq.
  - intros i c. unfold Title_delete. rewrite cascade_comments. cbn.
    setoid_rewrite elem_of_singleton. split.
    + intros (Hc & _ & _ & Hr). split; [done|].
      intros r Hl. by destruct (Hr r Hl).
    + intros [Hc Hr]. split; [done|].
      split; [apply not_elem_of_empty|]. split; [apply not_elem_of_empty|].
      intros r Hl. split; [by apply Hr | apply not_elem_of_empty].
  - intros Hinv. pose proof (Title_delete_no_orphans k db Hinv) as Hinv'.
    split; [exact Hinv'|]. intros i c Hc.
    destruct Hinv' as (_ & _ & _ & H4).
    destruct (H4 i c Hc) as [[r Hr] _]. exists r. split; [done|].
    by apply Hrv in Hr as [_ ?].
Qed.

(** C4, on the scenario: deleting title 1 leaves no review and no comment. *)
Lemma Title_delete_cascades_witness :
  no_orphans Scenario.reviewed ∧
  is_Some (reviews Scenario.reviewed !! 1) ∧
  is_Some (comments Scenario.reviewed !! 1) ∧
  no_orphans (Title_delete 1 Scenario.reviewed) ∧
  reviews (Title_delete 1 Scenario.reviewed) = ∅ ∧
  comments (Title_delete 1 Scenario.reviewed) = ∅.
Proof.
  assert (Hinv : no_orphans Scenario.reviewed).
  { apply reachable_no_orphans.
    exists (Scenario.setup ++
            [ SaveGenreTitle None Scenario.T1_drama;
              SaveReview 100 None (Scenario.review 8 5);
              SaveComment 150 None (Scenario.comment 5) ]).
    unfold Scenario.reviewed, Scenario.catalog. by rewrite foldl_app. }
  split; [exact Hinv|].
  split; [vm_compute; eauto|]. split; [vm_compute; eauto|].
  split; [|split; vm_compute; reflexivity].
  destruct (Title_delete_cascades Scenario.reviewed 1) as (_ & _ & _ & H).
  exact (proj1 (H Hinv)).
Defined.

(** C5.  Deleting a category keeps every title that referenced it: the
    title's row stays under its key with the category cleared and its name,
    year and description as they were; titles of other categories, the
    genre links, the reviews and the comments are untouched. *)
Theorem Category_delete_clears_category (db : DB) (k i : Z) (t : Title.t) :
  titles db !! i = Some t →
  Title.category t = Some k →
  ∃ t', titles (Category_delete k db) !! i = Some t' ∧
        Title.category t' = None ∧
        Title.name t' = Title.name t ∧
        Title.year t' = Title.year t ∧
        Title.description t' = Title.description t ∧
        genre_titles (Category_delete k db) = genre_titles db ∧
        reviews (Category_delete k db) = reviews db ∧
        comments (Category_delete k db) = comments db ∧
        categories (Category_delete k db) !! k = None ∧
        ∀ j u, titles db !! j = Some u → Title.category u ≠ Some k →
               titles (Category_delete k db) !! j = Some u.
Proof.
  intros Hi Hcat. exists (Title.set_category None t).
  split.
  { unfold Category_delete. rewrite cascade_titles. cbn. rewrite Hi. cbn.
    rewrite Hcat. cbn. rewrite bool_decide_eq_true_2; [done|].
    by apply elem_of_singleton. }
  do 4 (split; [reflexivity|]).
  split; [|split; [|split; [|split]]].
  - apply map_eq. intros j. apply option_eq. intros x.
    unfold Category_delete. rewrite cascade_genre_titles. cbn.
    split; [by intros (? & _)|]. intros Hx.
    split; [done|]. split; apply not_elem_of_empty.
  - apply map_eq. intros j. apply option_eq. intros x.
    unfold Category_delete. rewrite cascade_reviews. cbn.
    split; [by intros (? & _)|]. intros Hx.
    split; [done|]. split; apply not_elem_of_empty.
  - apply map_eq. intros j. apply option_eq. intros x.
    unfold Category_delete. rewrite cascade_comments. cbn.
    split; [by intros (? & _)|]. intros Hx.
    split; [done|]. split; [apply not_elem_of_empty|].
    split; [apply not_elem_of_empty|].
    intros r _. split; apply not_elem_of_empty.
  - unfold Category_delete. rewrite cascade_categories. cbn.
    by rewrite lookup_delete_eq.
  - intros j u Hj Hne. unfold Category_delete. rewrite cascade_titles. cbn.
    rewrite Hj. cbn. destruct (Title.category u) as [c|] eqn:Hc; cbn; [|done].
    rewrite bool_decide_eq_false_2; [done|].
    rewrite elem_of_singleton. congruence.
Qed.

(** C5, on the scenario: title 1 is in category 1; deleting the category
    leaves the title with no category. *)
Lemma Category_delete_clears_category_witness :
  titles Scenario.reviewed !! 1 = Some Scenario.T1 ∧
  Title.category Scenario.T1 = Some 1 ∧
  ∃ t', titles (Category_delete 1 Scenario.reviewed) !! 1 = Some t' ∧
        Title.category t' = None ∧ Title.name t' = "T1" ∧
        Title.year t' = 1999.
Proof.
  split; [vm_compute; reflexivity|]. split; [reflexivity|].
  destruct (Category_delete_clears_category Scenario.reviewed 1 1 Scenario.T1)
    as (t' & Ht' & Hc & Hn & Hy & _).
  - vm_compute. reflexivity.
  - reflexivity.
  - exists t'. rewrite Hn, Hy. auto.
Defined.

Lemma Title_scores_reviews (k : Z) (db db' : DB) :
  reviews db = reviews db' → Title_scores k db = Title_scores k db'.
Proof. unfold Title_scores. by intros ->. Qed.

(** C6.  No rating is stored: the columns that the [Title] class declares
    do not include one, and after migration 0003 the schema state of
    [title] has no [rating] field whatever the state before was (the
    migration applies exactly to the states in which [title] has that
    field and [review] exists).  A rating computed over the stored scores
    depends on the reviews alone, is the same whatever the title rows
    hold, and after a review is added it is computed from the scores
    including the new one. *)
Theorem Title_rating_not_stored :
  ("rating" ∉ Title.columns) ∧
  (∀ st st',
     apply_operations Migration_0003_auto_20240705_1915.operations st
       = Some st' →
     ∀ ms, st' !! "title" = Some ms → ms_fields ms !! "rating" = None) ∧
  (∀ st,
     is_Some (apply_operations
                Migration_0003_auto_20240705_1915.operations st) ↔
     (∃ ms, st !! "title" = Some ms ∧ is_Some (ms_fields ms !! "rating")) ∧
     is_Some (st !! "review")) ∧
  (∀ aggregate k db db',
     reviews db = reviews db' →
     Title_rating aggregate k db = Title_rating aggregate k db') ∧
  (∀ aggregate k pk t db i db',
     Title_save pk t db = inr (i, db') →
     Title_rating aggregate k db' = Title_rating aggregate k db) ∧
  (∀ now r db i db',
     Review_save now None r db = inr (i, db') →
     Title_scores (Review.title r) db' ≡ₚ
       Review.score r :: Title_scores (Review.title r) db).
Proof.
  split; [|split; [|split; [|split; [|split]]]].
  - unfold Title.columns. rewrite !elem_of_cons, elem_of_nil.
    intros H. repeat destruct H as [H|H]; done.
  - intros st st' Happ ms Hms.
    unfold Migration_0003_auto_20240705_1915.operations in Happ.
    cbn in Happ.
    destruct (st !! "title") as [ms0|] eqn:Ht; [|discriminate]. cbn in Happ.
    destruct (ms_fields ms0 !! "rating") as [f|] eqn:Hf; [|discriminate].
    cbn in Happ. rewrite lookup_insert_ne in Happ by done.
    destruct (st !! "review") as [ms1|] eqn:Hr; [|discriminate].
    cbn in Happ. rewrite lookup_insert_eq in Happ. cbn in Happ.
    injection Happ as <-.
    rewrite lookup_insert_ne in Hms by done.
    rewrite lookup_insert_ne in Hms by done.
    rewrite lookup_insert_eq in Hms. injection Hms as <-. cbn.
    apply lookup_delete_eq.
  - intros st. unfold Migration_0003_auto_20240705_1915.operations. cbn.
    destruct (st !! "title") as [ms0|] eqn:Ht; cbn.
    2: { split; [by intros [? ?] | by intros [(? & ? & _) _]]. }
    destruct (ms_fields ms0 !! "rating") as [f|] eqn:Hf; cbn.
    2: { split; [by intros [? ?]|].
         intros [(ms & [= <-] & [? Hx]) _]. congruence. }
    rewrite lookup_insert_ne by done.
    destruct (st !! "review") as [ms1|] eqn:Hr; cbn.
    2: { split; [by intros [? ?] | by intros [_ [? ?]]]. }
    rewrite lookup_insert_eq. cbn. split; [|eauto].
    intros _. split; [exists ms0; eauto | eauto].
  - intros aggregate k db db' Hrv. unfold Title_rating.
    by rewrite (Title_scores_reviews k db db').
  - intros aggregate k pk t db i db' Hs. unfold Title_rating.
    rewrite (Title_scores_reviews k db' db); [done|].
    unfold Title_save in Hs.
    by apply save_inr in Hs as (add & self & _ & -> & _).
  - intros now r db i db' Hs. unfold Review_save in Hs.
    apply save_inr in Hs as (add & self & _ & -> & Hcase).
    destruct Hcase as [(_ & _ & [=] & _)|(-> & _ & Hfree & _)].
    unfold Title_scores. cbn [reviews set_reviews].
    rewrite map_filter_insert_True by done.
    rewrite map_to_list_insert.
    + by rewrite fmap_cons.
    + by rewrite map_lookup_filter, Hfree.
Qed.

(** C6, on a schema in which [title] still has its [rating] field:
    migration 0003 applies and leaves no such field. *)
Lemma Title_rating_not_stored_witness :
  ∃ st', apply_operations Migration_0003_auto_20240705_1915.operations
           Scenario.schema_0002 = Some st' ∧
         ∀ ms, st' !! "title" = Some ms → ms_fields ms !! "rating" = None.
Proof.
  destruct Title_rating_not_stored as (_ & Hgone & Happ & _).
  destruct (proj2 (Happ Scenario.schema_0002)) as [st' Hst'].
  - split.
    + eexists. split; [vm_compute; reflexivity | vm_compute; eauto].
    + vm_compute. eauto.
  - exists st'. split; [exact Hst' | exact (Hgone _ _ Hst')].
Defined.

(** C7.  [is_admin] holds exactly when the role is [ADMIN] or the
    superuser flag is set, [is_moderator] exactly when the role is
    [MODERATOR].  Both are functions of the row: after the role or the flag
    is changed they answer for the new values, and for a row read back
    from the store they answer for what was saved. *)
Theorem User_is_admin_is_moderator (u : User.t) :
  (User.is_admin u = true ↔
     User.role u = User.ADMIN ∨ User.is_superuser u = true) ∧
  (User.is_moderator u = true ↔ User.role u = User.MODERATOR) ∧
  (∀ r b,
     (User.is_admin (User.set_role r (User.set_is_superuser b u)) = true ↔
        r = User.ADMIN ∨ b = true) ∧
     (User.is_moderator (User.set_role r (User.set_is_superuser b u)) = true ↔
        r = User.MODERATOR)) ∧
  (∀ pk db k db',
     User_save pk u db = inr (k, db') →
     User.is_admin <$> users db' !! k = Some (User.is_admin u) ∧
     User.is_moderator <$> users db' !! k = Some (User.is_moderator u)).
Proof.
  assert (Hadm : ∀ v, User.is_admin v = true ↔
                      User.role v = User.ADMIN ∨ User.is_superuser v = true).
  { intros v. unfold User.is_admin.
    rewrite orb_true_iff, String.eqb_eq. done. }
  assert (Hmod : ∀ v, User.is_moderator v = true ↔
                      User.role v = User.MODERATOR).
  { intros v. unfold User.is_moderator. apply String.eqb_eq. }
  split; [apply Hadm|]. split; [apply Hmod|]. split.
  - intros r b. split; [apply Hadm | apply Hmod].
  - intros pk db k db' Hs. unfold User_save in Hs.
    apply save_inr in Hs as (add & self & _ & -> & _). cbn.
    by rewrite lookup_insert_eq.
Qed.

(** C7, on the scenario: the user saved with role "admin" is an admin and
    not a moderator. *)
Lemma User_is_admin_is_moderator_witness :
  User.is_admin <$> users Scenario.catalog !! 1 = Some true ∧
  User.is_moderator <$> users Scenario.catalog !! 1 = Some false.
Proof.
  destruct (User_is_admin_is_moderator Scenario.admin) as (_ & _ & _ & Hs).
  apply (Hs None empty_db 1
           (foldl run empty_db [SaveUser None Scenario.admin])).
  vm_compute. reflexivity.
Defined.

(** C8, as amended.  [GenreTitle] rows have a key of their own and the
    class declares no uniqueness over (title, genre): whenever the title
    and the genre exist, a new link is stored under a fresh key next to
    the rows already there, whether or not one of them carries the same
    pair.  Deleting a title removes exactly the links whose title it is,
    and deleting a genre exactly the links whose genre it is. *)
Theorem GenreTitle_cascade_no_uniqueness (db : DB) :
  (∀ x, is_Some (titles db !! GenreTitle.title x) →
        is_Some (genres db !! GenreTitle.genre x) →
        genre_titles db !! next_pk (genre_titles db) = None ∧
        GenreTitle_save None x db =
          inr (next_pk (genre_titles db),
               set_genre_titles db
                 (<[next_pk (genre_titles db) := x]> (genre_titles db)))) ∧
  (∀ k i x, genre_titles (Title_delete k db) !! i = Some x ↔
            genre_titles db !! i = Some x ∧ GenreTitle.title x ≠ k) ∧
  (∀ k i x, genre_titles (Genre_delete k db) !! i = Some x ↔
            genre_titles db !! i = Some x ∧ GenreTitle.genre x ≠ k).
Proof.
  split; [|split].
  - intros x Ht Hg. split; [apply next_pk_fresh|].
    unfold GenreTitle_save, save_row.
    rewrite (proj2 (GenreTitle_check_inr db None x)) by done.
    reflexivity.
  - intros k i x. unfold Title_delete. rewrite cascade_genre_titles. cbn.
    rewrite elem_of_singleton. split; [by intros (? & ? & _)|].
    intros [? ?]. split; [done|]. split; [done | apply not_elem_of_empty].
  - intros k i x. unfold Genre_delete. rewrite cascade_genre_titles. cbn.
    rewrite elem_of_singleton. split; [by intros (? & _ & ?)|].
    intros [? ?]. split; [done|]. split; [apply not_elem_of_empty | done].
Qed.

(** C8, on the scenario: the link of title 1 to genre 1 is accepted a
    second time. *)
Lemma GenreTitle_cascade_no_uniqueness_witness :
  is_Some (titles Scenario.reviewed !! 1) ∧
  is_Some (genres Scenario.reviewed !! 1) ∧
  genre_titles Scenario.reviewed !! 1 = Some Scenario.T1_drama ∧
  is_ok (GenreTitle_save None Scenario.T1_drama Scenario.reviewed) = true.
Proof.
  assert (Ht : is_Some (titles Scenario.reviewed !! 1))
    by (vm_compute; eauto).
  assert (Hg : is_Some (genres Scenario.reviewed !! 1))
    by (vm_compute; eauto).
  split; [exact Ht|]. split; [exact Hg|]. split; [vm_compute; reflexivity|].
  destruct (GenreTitle_cascade_no_uniqueness Scenario.reviewed) as [Hs _].
  destruct (Hs Scenario.T1_drama Ht Hg) as [_ ->]. reflexivity.
Defined.

(** C8 as stated fails on uniqueness: after the link of title 1 to genre 1
    is saved twice the table holds two rows, under keys 1 and 2, for the
    same (title, genre) pair. *)
Lemma GenreTitle_duplicate_pair :
  reachable Scenario.linked_twice ∧
  genre_titles Scenario.linked_twice !! 1 = Some Scenario.T1_drama ∧
  genre_titles Scenario.linked_twice !! 2 = Some Scenario.T1_drama ∧
  (1 : Z) ≠ 2.
Proof.
  split.
  - exists (Scenario.setup ++
            [ SaveGenreTitle None Scenario.T1_drama;
              SaveGenreTitle None Scenario.T1_drama ]).
    unfold Scenario.linked_twice, Scenario.catalog. by rewrite foldl_app.
  - split; [vm_compute; reflexivity|]. split; [vm_compute; reflexivity|].
    discriminate.
Qed.

Lemma Comment_save_lookup (now : Z) (pk : option Z) (c : Comment.t)
  (db db' : DB) (k : Z) :
  Comment_save now pk c db = inr (k, db') →
  (comments db !! k = None ∧
     comments db' !! k = Some (Comment_pre_save now true c)) ∨
  (is_Some (comments db !! k) ∧
     comments db' !! k = Some (Comment_pre_save now false c)).
Proof.
  unfold Comment_save. intros (add & self & _ & -> & Hcase)%save_inr. cbn.
  rewrite lookup_insert_eq.
  destruct Hcase as [(-> & _ & _ & ?)|(-> & _ & ? & _)]; auto.
Qed.

Lemma Review_save_lookup_add (now : Z) (pk : option Z) (r : Review.t)
  (db db' : DB) (k : Z) :
  Review_save now pk r db = inr (k, db') →
  (reviews db !! k = None ∧
     reviews db' !! k = Some (Review_pre_save now true r)) ∨
  (is_Some (reviews db !! k) ∧
     reviews db' !! k = Some (Review_pre_save now false r)).
Proof.
  unfold Review_save. intros (add & self & _ & -> & Hcase)%save_inr. cbn.
  rewrite lookup_insert_eq.
  destruct Hcase as [(-> & _ & _ & ?)|(-> & _ & ? & _)]; auto.
Qed.

(** C9, as amended.  When a review or a comment is created its stored
    [pub_date] is the time of the save, whatever [pub_date] the caller put
    on the instance.  When an existing row is saved again the field is not
    stamped anew: the stored value becomes the [pub_date] attribute of the
    saved instance, so it stays what it was when the instance carries the
    value it was loaded with.  Nothing is said of an update whose instance
    carries another [pub_date]. *)
Theorem pub_date_set_on_creation (now : Z) (db : DB) :
  (∀ pk r k db',
     Review_save now pk r db = inr (k, db') →
     (reviews db !! k = None →
        Review.pub_date <$> reviews db' !! k = Some now) ∧
     (∀ old, reviews db !! k = Some old →
        Review.pub_date r = Review.pub_date old →
        Review.pub_date <$> reviews db' !! k = Some (Review.pub_date old))) ∧
  (∀ r d, Review_save now None (Review.set_pub_date d r) db
          = Review_save now None r db) ∧
  (∀ pk c k db',
     Comment_save now pk c db = inr (k, db') →
     (comments db !! k = None →
        Comment.pub_date <$> comments db' !! k = Some now) ∧
     (∀ old, comments db !! k = Some old →
        Comment.pub_date c = Comment.pub_date old →
        Comment.pub_date <$> comments db' !! k = Some (Comment.pub_date old))) ∧
  (∀ c d, Comment_save now None (Comment.set_pub_date d c) db
          = Comment_save now None c db).
Proof.
  split; [|split; [|split]].
  - intros pk r k db' Hs.
    apply Review_save_lookup_add in Hs as [[Hnew ->]|[[x Hx] ->]].
    + split; [done|]. intros old Hold. congruence.
    + split; [intros Hnew; congruence|].
      intros old Hold Heq. cbn. by rewrite Heq.
  - intros r d. reflexivity.
  - intros pk c k db' Hs.
    apply Comment_save_lookup in Hs as [[Hnew ->]|[[x Hx] ->]].
    + split; [done|]. intros old Hold. congruence.
    + split; [intros Hnew; congruence|].
      intros old Hold Heq. cbn. by rewrite Heq.
  - intros c d. reflexivity.
Qed.

(** C9, on the scenario: the review created at time 100 from an instance
    whose [pub_date] was 5 is stored with [pub_date] 100. *)
Lemma pub_date_set_on_creation_witness :
  is_ok (Review_save 100 None (Scenario.review 8 5)
           (run Scenario.catalog (SaveGenreTitle None Scenario.T1_drama)))
    = true ∧
  Review.pub_date <$> reviews Scenario.reviewed !! 1 = Some 100.
Proof.
  split; [vm_compute; reflexivity|].
  destruct (pub_date_set_on_creation 100
              (run Scenario.catalog (SaveGenreTitle None Scenario.T1_drama)))
    as [Hr _].
  destruct (Hr None (Scenario.review 8 5) 1
              (foldl run Scenario.catalog
                 [ SaveGenreTitle None Scenario.T1_drama;
                   SaveReview 100 None (Scenario.review 8 5) ]))
    as [Hnew _].
  - vm_compute. reflexivity.
  - vm_compute. vm_compute in Hnew. apply Hnew. reflexivity.
Defined.

(** C9 as stated fails on update: the review stored with [pub_date] 100 is
    saved again, at time 200, from an instance whose [pub_date] is 7; the
    save succeeds and the stored [pub_date] is now 7. *)
Lemma pub_date_overwritten_on_update :
  Review.pub_date <$> reviews Scenario.reviewed !! 1 = Some 100 ∧
  is_ok (Review_save 200 (Some 1) (Scenario.review 8 7) Scenario.reviewed)
    = true ∧
  Review.pub_date <$> reviews Scenario.redated !! 1 = Some 7.
Proof. repeat split; vm_compute; reflexivity. Qed.

(** ** Default ordering *)

Lemma compare_value_antisym (a b : value) :
  compare_value a b = CompOpp (compare_value b a).
Proof.
  destruct a, b; cbn; try done.
  - apply Z.compare_antisym.
  - apply String.compare_antisym.
Qed.

Lemma compare_by_antisym {A} (get : string → A → value)
  (ordering : list string) (a b : A) :
  compare_by get ordering a b = CompOpp (compare_by get ordering b a).
Proof.
  induction ordering as [|f fs IH]; cbn; [done|].
  rewrite (compare_value_antisym (get f a) (get f b)).
  destruct (compare_value (get f b) (get f a)); cbn; done.
Qed.

Global Instance ordered_total {A} (get : string → A → value)
  (ordering : list string) : Total (ordered get ordering).
Proof.
  intros x y. unfold ordered.
  rewrite (compare_by_antisym get ordering x.2 y.2).
  destruct (compare_by get ordering y.2 x.2); cbn; auto.
Qed.

Lemma leb_le (s t : string) :
  String.leb s t = true ↔ s = t ∨ OrderedTypeEx.String_as_OT.lt s t.
Proof.
  unfold String.leb.
  rewrite <- OrderedTypeEx.String_as_OT.cmp_eq,
    <- OrderedTypeEx.String_as_OT.cmp_lt.
  unfold OrderedTypeEx.String_as_OT.cmp.
  destruct (String.compare s t);
    (split; [intros ?; try done; auto | intros [?|?]; done]).
Qed.

Lemma leb_trans (s t u : string) :
  String.leb s t = true → String.leb t u = true → String.leb s u = true.
Proof.
  rewrite !leb_le. intros [->|H1] [->|H2]; auto.
  right. by apply (OrderedTypeEx.String_as_OT.lt_trans s t u).
Qed.

Lemma Sorted_weaken {A} (R R' : relation A) (l : list A) :
  (∀ x y, R x y → R' x y) → Sorted R l → Sorted R' l.
Proof.
  intros Himp. induction 1 as [|x l Hl IH Hhd]; constructor; [done|].
  destruct Hhd; constructor. auto.
Qed.

Lemma ordered_username (x y : Z * User.t) :
  ordered User.get User.Meta.ordering x y ↔
  String.leb (User.username x.2) (User.username y.2) = true.
Proof.
  unfold ordered, User.Meta.ordering, String.leb. cbn.
  destruct (String.compare _ _); split; done.
Qed.

(** C10.  A listing of the users with no ordering asked for is ordered by
    [username], ascending: every entry's username is less than or equal to
    the username of every later entry.  The listing holds the stored users,
    each once. *)
Theorem User_objects_all_ordered (db : DB) :
  StronglySorted
    (λ x y, String.leb (User.username x.2) (User.username y.2) = true)
    (User_objects_all db) ∧
  User_objects_all db ≡ₚ map_to_list (users db) ∧
  NoDup (User_objects_all db) ∧
  ∀ k u, (k, u) ∈ User_objects_all db ↔ users db !! k = Some u.
Proof.
  assert (Hperm : User_objects_all db ≡ₚ map_to_list (users db)).
  { unfold User_objects_all, objects_all. apply merge_sort_Permutation. }
  split; [|split; [exact Hperm|split]].
  - apply Sorted_StronglySorted.
    + intros x y z. apply leb_trans.
    + apply (Sorted_weaken (ordered User.get User.Meta.ordering)).
      * intros x y. apply ordered_username.
      * unfold User_objects_all, objects_all. apply Sorted_merge_sort, _.
  - rewrite Hperm. apply NoDup_map_to_list.
  - intros k u. rewrite Hperm. apply elem_of_map_to_list.
Qed.

(** C10, on two users saved in the order "Zed", "admin": the listing puts
    "Zed" first, upper case coming before lower case. *)
Lemma User_objects_all_ordered_example :
  (λ x, User.username x.2) <$> User_objects_all Scenario.two_users
  = ["Zed"; "admin"].
Proof. vm_compute. reflexivity. Qed.

(** * Further properties of the schema *)

(** ** Fields declared unique *)

Lemma unique_on_sub {A} (get : string → A → value) (fields : list string)
  (tbl tbl' : gmap Z A) :
  (∀ i x, tbl' !! i = Some x → tbl !! i = Some x) →
  unique_on get fields tbl → unique_on get fields tbl'.
Proof. intros Hsub Hu i j x y Hi Hj. apply Hu; auto. Qed.

Lemma unique_on_insert {A} (get : string → A → value) (fields : list string)
  (self : option Z) (k : Z) (a : A) (tbl : gmap Z A) :
  unique_on get fields tbl →
  ¬ clashes get fields self a tbl →
  (∀ j, j ≠ k → Some j ≠ self) →
  unique_on get fields (<[k:=a]> tbl).
Proof.
  intros Hu Hno Hself i j x y.
  rewrite !lookup_insert_Some.
  intros [[<- <-]|[Hi Hx]] [[<- <-]|[Hj Hy]] Heq.
  - done.
  - destruct Hno. exists j, y. auto.
  - destruct Hno. exists i, x. auto.
  - by apply (Hu i j x y).
Qed.

Lemma save_self_other (add : bool) (self pk : option Z) (k : Z) {A}
  (tbl : gmap Z A) :
  (add = false ∧ self = Some k ∧ pk = Some k ∧ is_Some (tbl !! k) ∨
   add = true ∧ self = None ∧ tbl !! k = None ∧
     (pk = Some k ∨ pk = None ∧ k = next_pk tbl)) →
  ∀ j, j ≠ k → Some j ≠ self.
Proof. intros [(_ & -> & _)|(_ & -> & _)] j Hj; congruence. Qed.

Lemma exec_unique_fields (o : op) (db db' : DB) :
  exec o db = inr db' → unique_fields db → unique_fields db'.
Proof.
  intros E (Hn & He & Hc & Hg).
  destruct o; cbn [exec] in E;
    try (injection E as <-);
    try (apply fmap_inr in E as ([k db''] & E & ->);
         unfold User_save, Category_save, Genre_save, Title_save,
           GenreTitle_save, Review_save, Comment_save in E;
         apply save_inr in E as (add & self & Hchk & -> & Hcase);
         pose proof (save_self_other _ _ _ _ _ Hcase) as Hself);
    try (by repeat split).
  - (* SaveUser *)
    unfold User_check in Hchk.
    pose proof (proj1 (check_constraints_inr _ _ _ _ _) Hchk) as Hno.
    split; [|split; [|done]]; cbn [users set_users].
    + apply (unique_on_insert _ _ self); [done| |done].
      apply (Hno (unique_field "username")). by left.
    + apply (unique_on_insert _ _ self); [done| |done].
      apply (Hno (unique_field "email")). right. by left.
  - (* SaveCategory *)
    unfold Category_check in Hchk.
    pose proof (proj1 (check_constraints_inr _ _ _ _ _) Hchk) as Hno.
    split; [done|]. split; [done|]. split; [|done].
    cbn [categories set_categories].
    apply (unique_on_insert _ _ self); [done| |done].
    apply (Hno (unique_field "slug")). by left.
  - (* SaveGenre *)
    unfold Genre_check in Hchk.
    pose proof (proj1 (check_constraints_inr _ _ _ _ _) Hchk) as Hno.
    split; [done|]. split; [done|]. split; [done|].
    cbn [genres set_genres].
    apply (unique_on_insert _ _ self); [done| |done].
    apply (Hno (unique_field "slug")). by left.
  - (* DeleteUser *)
    unfold User_delete, unique_fields. rewrite !cascade_users. cbn.
    split; [|split; [|done]];
      (eapply unique_on_sub; [|eassumption]);
      by intros i x [_ ?]%lookup_delete_Some.
  - (* DeleteCategory *)
    unfold Category_delete, unique_fields. cbn.
    split; [done|]. split; [done|]. split; [|done].
    eapply unique_on_sub; [|eassumption].
    by intros i x [_ ?]%lookup_delete_Some.
  - (* DeleteGenre *)
    unfold Genre_delete, unique_fields. cbn.
    split; [done|]. split; [done|]. split; [done|].
    eapply unique_on_sub; [|eassumption].
    by intros i x [_ ?]%lookup_delete_Some.
Qed.

Lemma reachable_unique_fields (db : DB) : reachable db → unique_fields db.
Proof.
  intros [os ->]. apply foldl_run_invariant.
  - intros d o Hd. unfold run.
    destruct (exec o d) as [e|d'] eqn:E; [done|].
    by apply (exec_unique_fields o d).
  - repeat split; intros i j x y Hi; cbn in Hi; by rewrite lookup_empty in Hi.
Qed.

Lemma check_constraints_clash {A} (get : string → A → value)
  (cs : list UniqueConstraint) (self : option Z) (a : A) (tbl : gmap Z A)
  (c : UniqueConstraint) :
  c ∈ cs → clashes get (uc_fields c) self a tbl →
  ∃ c', c' ∈ cs ∧
        check_constraints get cs self a tbl = inl (IntegrityError (uc_name c')).
Proof.
  intros Hc Hcl.
  destruct (check_constraints get cs self a tbl) as [e|[]] eqn:E.
  - apply check_constraints_inl in E as (c' & Hc' & -> & _). eauto.
  - destruct (proj1 (check_constraints_inr _ _ _ _ _) E c Hc Hcl).
Qed.

Lemma save_row_refused {A} (pre : bool → A → A)
  (chk : option Z → A → result unit) (pk : option Z) (a : A)
  (tbl : gmap Z A) (P : error → Prop) :
  (∀ self add, (self = pk ∨ self = None) →
     ∃ e, chk self (pre add a) = inl e ∧ P e) →
  ∃ e, save_row pre chk pk a tbl = inl e ∧ P e.
Proof.
  intros Hc. unfold save_row.
  destruct pk as [k|]; [destruct (tbl !! k)|].
  - destruct (Hc (Some k) false) as (e & -> & He); eauto.
  - destruct (Hc None true) as (e & -> & He); eauto.
  - destruct (Hc None true) as (e & -> & He); eauto.
Qed.

(** X1.  In every store produced by a history of saves and deletes no two
    users have the same username and no two have the same email.  Saving
    a user, as a new row or over another row, with the username or the
    email of a stored user is refused with an integrity error naming the
    field, and the store stays as it was. *)
Theorem User_username_email_unique (db : DB) :
  reachable db →
  (∀ i j u v, users db !! i = Some u → users db !! j = Some v →
     User.username u = User.username v ∨ User.email u = User.email v →
     i = j) ∧
  ∀ pk u k0 u0,
    users db !! k0 = Some u0 → pk ≠ Some k0 →
    User.username u0 = User.username u ∨ User.email u0 = User.email u →
    (∃ c, User_save pk u db = inl (IntegrityError c) ∧
          (c = "username" ∨ c = "email")) ∧
    run db (SaveUser pk u) = db.
Proof.
  intros Hre. destruct (reachable_unique_fields db Hre) as (Hn & He & _).
  split.
  - intros i j u v Hi Hj [Heq|Heq].
    + apply (Hn i j u v Hi Hj). cbn. by rewrite Heq.
    + apply (He i j u v Hi Hj). cbn. by rewrite Heq.
  - intros pk u k0 u0 Hk0 Hpk Heq.
    assert (Hs : ∃ e, save_row (λ _ x, x) (User_check db) pk u (users db)
                      = inl e ∧
                      ∃ c, e = IntegrityError c ∧
                           (c = "username" ∨ c = "email")).
    { apply save_row_refused. intros self add Hself. unfold User_check.
      assert (Hne : Some k0 ≠ self) by (destruct Hself; congruence).
      destruct Heq as [Heq|Heq].
      - destruct (check_constraints_clash User.get User_constraints self u
                    (users db) (unique_field "username"))
          as (c' & Hc' & ->).
        + by left.
        + exists k0, u0. split; [done|]. split; [done|]. cbn. by rewrite Heq.
        + eexists. split; [done|]. eexists. split; [done|].
          apply elem_of_cons in Hc' as [->|Hc']; [by left|].
          apply list_elem_of_singleton in Hc' as ->. by right.
      - destruct (check_constraints_clash User.get User_constraints self u
                    (users db) (unique_field "email"))
          as (c' & Hc' & ->).
        + right. by left.
        + exists k0, u0. split; [done|]. split; [done|]. cbn. by rewrite Heq.
        + eexists. split; [done|]. eexists. split; [done|].
          apply elem_of_cons in Hc' as [->|Hc']; [by left|].
          apply list_elem_of_singleton in Hc' as ->. by right. }
    destruct Hs as (e & Hs & c & -> & Hc).
    unfold run, User_save. cbn [exec]. unfold User_save. rewrite Hs. cbn.
    split; [eauto | done].
Qed.

Lemma Library_reachable : reachable Library.store.
Proof. by exists Library.history. Qed.

(** X1, on the library: a second user named "ann" is refused. *)
Lemma User_username_email_unique_witness :
  reachable Library.store ∧
  users Library.store !! 1 = Some Library.ann ∧
  run Library.store (SaveUser None Library.ann_again) = Library.store.
Proof.
  assert (Hre : reachable Library.store) by (by exists Library.history).
  split; [exact Hre|]. split; [vm_compute; reflexivity|].
  destruct (User_username_email_unique Library.store Hre) as [_ Hs].
  destruct (Hs None Library.ann_again 1 Library.ann) as [_ Hrun].
  - vm_compute. reflexivity.
  - discriminate.
  - left. reflexivity.
  - exact Hrun.
Defined.

(** X2.  In every store produced by a history of saves and deletes no two
    categories have the same slug and no two genres have the same slug;
    saving a category (a genre) with the slug of another stored category
    (genre) is refused with an integrity error on [slug] and the store
    stays as it was.  The two tables are checked apart: a genre is never
    refused for the slug of a category. *)
Theorem slug_unique_per_model (db : DB) :
  reachable db →
  (∀ i j c d, categories db !! i = Some c → categories db !! j = Some d →
     Category.slug c = Category.slug d → i = j) ∧
  (∀ i j g h, genres db !! i = Some g → genres db !! j = Some h →
     Genre.slug g = Genre.slug h → i = j) ∧
  (∀ pk c k0 c0,
     categories db !! k0 = Some c0 → pk ≠ Some k0 →
     Category.slug c0 = Category.slug c →
     Category_save pk c db = inl (IntegrityError "slug") ∧
     run db (SaveCategory pk c) = db) ∧
  (∀ pk g k0 g0,
     genres db !! k0 = Some g0 → pk ≠ Some k0 →
     Genre.slug g0 = Genre.slug g →
     Genre_save pk g db = inl (IntegrityError "slug") ∧
     run db (SaveGenre pk g) = db) ∧
  (∀ g, (∀ k0 g0, genres db !! k0 = Some g0 → Genre.slug g0 ≠ Genre.slug g) →
     is_ok (Genre_save None g db) = true).
Proof.
  intros Hre. destruct (reachable_unique_fields db Hre) as (_ & _ & Hc & Hg).
  split; [|split; [|split; [|split]]].
  - intros i j c d Hi Hj Heq. apply (Hc i j c d Hi Hj). cbn. by rewrite Heq.
  - intros i j g h Hi Hj Heq. apply (Hg i j g h Hi Hj). cbn. by rewrite Heq.
  - intros pk c k0 c0 Hk0 Hpk Heq.
    assert (Hs : ∃ e, save_row (λ _ x, x) (Category_check db) pk c
                        (categories db) = inl e ∧
                      e = IntegrityError "slug").
    { apply save_row_refused. intros self add Hself. unfold Category_check.
      assert (Hne : Some k0 ≠ self) by (destruct Hself; congruence).
      destruct (check_constraints_clash Category.get
                  (unique_if Category.slug_unique "slug") self c
                  (categories db) (unique_field "slug")) as (c' & Hc' & ->).
      - by left.
      - exists k0, c0. split; [done|]. split; [done|]. cbn. by rewrite Heq.
      - apply list_elem_of_singleton in Hc' as ->. eauto. }
    destruct Hs as (e & Hs & ->).
    unfold run. cbn [exec]. unfold Category_save. rewrite Hs. done.
  - intros pk g k0 g0 Hk0 Hpk Heq.
    assert (Hs : ∃ e, save_row (λ _ x, x) (Genre_check db) pk g
                        (genres db) = inl e ∧
                      e = IntegrityError "slug").
    { apply save_row_refused. intros self add Hself. unfold Genre_check.
      assert (Hne : Some k0 ≠ self) by (destruct Hself; congruence).
      destruct (check_constraints_clash Genre.get
                  (unique_if Genre.slug_unique "slug") self g
                  (genres db) (unique_field "slug")) as (c' & Hc' & ->).
      - by left.
      - exists k0, g0. split; [done|]. split; [done|]. cbn. by rewrite Heq.
      - apply list_elem_of_singleton in Hc' as ->. eauto. }
    destruct Hs as (e & Hs & ->).
    unfold run. cbn [exec]. unfold Genre_save. rewrite Hs. done.
  - intros g Hfree. unfold Genre_save, save_row, Genre_check.
    rewrite (proj2 (check_constraints_inr Genre.get
                      (unique_if Genre.slug_unique "slug") None g (genres db))).
    + reflexivity.
    + intros c ->%list_elem_of_singleton (k0 & g0 & Hk0 & _ & Heq).
      apply (Hfree k0 g0 Hk0). cbn in Heq. by injection Heq.
Qed.

(** X2, on the library: the category and the genre share the slug
    "classic"; a second category with that slug is refused. *)
Lemma slug_unique_per_model_witness :
  reachable Library.store ∧
  Category.slug <$> categories Library.store !! 1 = Some "classic" ∧
  Genre.slug <$> genres Library.store !! 1 = Some "classic" ∧
  Category_save None Library.books_again Library.store
    = inl (IntegrityError "slug").
Proof.
  assert (Hre : reachable Library.store) by (by exists Library.history).
  split; [exact Hre|].
  split; [vm_compute; reflexivity|]. split; [vm_compute; reflexivity|].
  destruct (slug_unique_per_model Library.store Hre) as (_ & _ & Hs & _).
  destruct (Hs None Library.books_again 1 Library.books) as [Hsave _].
  - vm_compute. reflexivity.
  - discriminate.
  - reflexivity.
  - exact Hsave.
Defined.

(** ** Deleting a user or a review *)

(** X3.  Deleting a user removes the user's row, exactly the reviews the
    user wrote, and exactly the comments that the user wrote or that were
    made on one of those reviews, by anyone; titles, categories, genres
    and genre links are left as they were, and a store without orphans
    stays without orphans. *)
Theorem User_delete_cascades (db : DB) (k : Z) :
  users (User_delete k db) = delete k (users db) ∧
  (∀ i r, reviews (User_delete k db) !! i = Some r ↔
          reviews db !! i = Some r ∧ Review.author r ≠ k) ∧
  (∀ i c, comments (User_delete k db) !! i = Some c ↔
          comments db !! i = Some c ∧ Comment.author c ≠ k ∧
          ∀ r, reviews db !! Comment.review c = Some r →
               Review.author r ≠ k) ∧
  titles (User_delete k db) = titles db ∧
  genre_titles (User_delete k db) = genre_titles db ∧
  categories (User_delete k db) = categories db ∧
  genres (User_delete k db) = genres db ∧
  (no_orphans db → no_orphans (User_delete k db)).
Proof.
  split; [reflexivity|].
  split; [|split; [|split; [|split; [|split; [|split]]]]].
  - intros i r. unfold User_delete. rewrite cascade_reviews. cbn.
    rewrite elem_of_singleton. split; [by intros (? & _ & ?)|].
    intros [? ?]. split; [done|]. split; [apply not_elem_of_empty | done].
  - intros i c. unfold User_delete. rewrite cascade_comments. cbn.
    setoid_rewrite elem_of_singleton. split.
    + intros (Hc & Ha & _ & Hr). split; [done|]. split; [done|].
      intros r Hl. by destruct (Hr r Hl).
    + intros (Hc & Ha & Hr). split; [done|]. split; [done|].
      split; [apply not_elem_of_empty|].
      intros r Hl. split; [apply not_elem_of_empty | by apply Hr].
  - apply map_eq. intros j. unfold User_delete. rewrite cascade_titles. cbn.
    destruct (titles db !! j) as [t|]; [|done]. cbn.
    destruct (Title.category t); cbn; [|done].
    rewrite bool_decide_eq_false_2; [done | apply not_elem_of_empty].
  - apply map_eq. intros j. apply option_eq. intros x.
    unfold User_delete. rewrite cascade_genre_titles. cbn.
    split; [by intros (? & _)|]. intros Hx.
    split; [done|]. split; apply not_elem_of_empty.
  - reflexivity.
  - reflexivity.
  - apply User_delete_no_orphans.
Qed.

(** X3, on the library: ann wrote review 1 and comments 2 and 3; bob
    commented on ann's review.  Deleting ann leaves bob's two reviews and
    no comment at all. *)
Lemma User_delete_cascades_witness :
  no_orphans Library.store ∧
  no_orphans (User_delete 1 Library.store) ∧
  dom (reviews (User_delete 1 Library.store)) = {[2; 3]} ∧
  comments (User_delete 1 Library.store) = ∅.
Proof.
  assert (Hinv : no_orphans Library.store).
  { apply reachable_no_orphans. by exists Library.history. }
  split; [exact Hinv|].
  split; [|split; vm_compute; reflexivity].
  destruct (User_delete_cascades Library.store 1)
    as (_ & _ & _ & _ & _ & _ & _ & H).
  exact (H Hinv).
Defined.

(** X4.  Deleting a review removes its row and exactly the comments made on
    it; every other review and every other table is left as it was, and a
    store without orphans stays without orphans. *)
Theorem Review_delete_cascades (db : DB) (k : Z) :
  reviews (Review_delete k db) = delete k (reviews db) ∧
  (∀ i c, comments (Review_delete k db) !! i = Some c ↔
          comments db !! i = Some c ∧ Comment.review c ≠ k) ∧
  users (Review_delete k db) = users db ∧
  titles (Review_delete k db) = titles db ∧
  genre_titles (Review_delete k db) = genre_titles db ∧
  (no_orphans db → no_orphans (Review_delete k db)).
Proof.
  split; [|split; [|split; [|split; [|split]]]].
  - apply map_eq. intros j. apply option_eq. intros x.
    unfold Review_delete. rewrite cascade_reviews. cbn.
    split; [by intros (? & _)|]. intros Hx.
    split; [done|]. split; apply not_elem_of_empty.
  - intros i c. unfold Review_delete. rewrite cascade_comments. cbn.
    rewrite elem_of_singleton. split.
    + intros (Hc & _ & Hr & _). done.
    + intros [Hc Hr]. split; [done|].
      split; [apply not_elem_of_empty|]. split; [done|].
      intros r _. split; apply not_elem_of_empty.
  - reflexivity.
  - apply map_eq. intros j. unfold Review_delete. rewrite cascade_titles. cbn.
    destruct (titles db !! j) as [t|]; [|done]. cbn.
    destruct (Title.category t); cbn; [|done].
    rewrite bool_decide_eq_false_2; [done | apply not_elem_of_empty].
  - apply map_eq. intros j. apply option_eq. intros x.
    unfold Review_delete. rewrite cascade_genre_titles. cbn.
    split; [by intros (? & _)|]. intros Hx.
    split; [done|]. split; apply not_elem_of_empty.
  - apply Review_delete_no_orphans.
Qed.

(** X4, on the library: deleting review 1 removes comment 1 and keeps
    comments 2 and 3. *)
Lemma Review_delete_cascades_witness :
  no_orphans Library.store ∧
  no_orphans (Review_delete 1 Library.store) ∧
  dom (comments (Review_delete 1 Library.store)) = {[2; 3]}.
Proof.
  assert (Hinv : no_orphans Library.store).
  { apply reachable_no_orphans. by exists Library.history. }
  split; [exact Hinv|]. split; [|vm_compute; reflexivity].
  destruct (Review_delete_cascades Library.store 1) as (_ & _ & _ & _ & _ & H).
  exact (H Hinv).
Defined.

(** ** Foreign keys *)

Lemma check_fk_None {P} (parent : gmap Z P) (name : string) (k : Z) :
  parent !! k = None → check_fk parent name k = inl (IntegrityError name).
Proof. unfold check_fk. by intros ->. Qed.

Lemma PositiveSmallIntegerField_check_cases (name : string) (v : Z) :
  PositiveSmallIntegerField_check name v = inr tt ∨
  PositiveSmallIntegerField_check name v = inl (IntegrityError name).
Proof.
  unfold PositiveSmallIntegerField_check. destruct (0 <=? v); auto.
Qed.

Lemma check_fk_cases {P} (parent : gmap Z P) (name : string) (k : Z) :
  check_fk parent name k = inr tt ∨
  check_fk parent name k = inl (IntegrityError name).
Proof. unfold check_fk. destruct (parent !! k); auto. Qed.

(** X5.  In every store produced by a history of saves and deletes every
    reference names a stored row: a review's title and author, a
    comment's review and author, a genre link's title and genre, and the
    category of a title that has one. *)
Theorem store_has_no_orphans (db : DB) :
  reachable db →
  (∀ i r, reviews db !! i = Some r →
     is_Some (titles db !! Review.title r) ∧
     is_Some (users db !! Review.author r)) ∧
  (∀ i c, comments db !! i = Some c →
     is_Some (reviews db !! Comment.review c) ∧
     is_Some (users db !! Comment.author c)) ∧
  (∀ i x, genre_titles db !! i = Some x →
     is_Some (titles db !! GenreTitle.title x) ∧
     is_Some (genres db !! GenreTitle.genre x)) ∧
  (∀ i t c, titles db !! i = Some t → Title.category t = Some c →
     is_Some (categories db !! c)).
Proof.
  intros Hre. destruct (reachable_no_orphans db Hre) as (H1 & H2 & H3 & H4).
  done.
Qed.

(** X5, on the library: comment 1 is on a stored review by a stored user. *)
Lemma store_has_no_orphans_witness :
  reachable Library.store ∧
  ∀ i c, comments Library.store !! i = Some c →
    is_Some (reviews Library.store !! Comment.review c) ∧
    is_Some (users Library.store !! Comment.author c).
Proof.
  assert (Hre : reachable Library.store) by (by exists Library.history).
  split; [exact Hre|].
  exact (proj1 (proj2 (store_has_no_orphans Library.store Hre))).
Defined.

(** X6.  A reference to a row that is not stored is refused by the storage
    layer and the store stays as it was: a review needs its title and its
    author, a comment its review and its author, a genre link its title and
    its genre, and a title the category it names.  The category alone may
    be left empty: a title with no category and a year from 0 to 32767 is
    stored. *)
Theorem foreign_keys_required (db : DB) :
  (∀ now pk r,
     titles db !! Review.title r = None ∨
     users db !! Review.author r = None →
     (∃ c, Review_save now pk r db = inl (IntegrityError c)) ∧
     run db (SaveReview now pk r) = db) ∧
  (∀ now pk c,
     reviews db !! Comment.review c = None ∨
     users db !! Comment.author c = None →
     (∃ f, Comment_save now pk c db = inl (IntegrityError f)) ∧
     run db (SaveComment now pk c) = db) ∧
  (∀ pk x,
     titles db !! GenreTitle.title x = None ∨
     genres db !! GenreTitle.genre x = None →
     (∃ f, GenreTitle_save pk x db = inl (IntegrityError f)) ∧
     run db (SaveGenreTitle pk x) = db) ∧
  (∀ pk t c,
     Title.category t = Some c → categories db !! c = None →
     (∃ f, Title_save pk t db = inl (IntegrityError f)) ∧
     run db (SaveTitle pk t) = db) ∧
  (∀ pk t,
     Title.category t = None → 0 ≤ Title.year t ≤ 32767 →
     is_ok (Title_save pk t db) = true).
Proof.
  split; [|split; [|split; [|split]]].
  - intros now pk r Hmiss.
    assert (Hs : ∃ e, save_row (Review_pre_save now) (Review_check db) pk r
                        (reviews db) = inl e ∧
                      ∃ c, e = IntegrityError c).
    { apply save_row_refused. intros self add _. unfold Review_check.
      destruct (PositiveSmallIntegerField_check_cases "score"
                  (Review.score (Review_pre_save now add r))) as [->| ->];
        [|cbn; eauto].
      destruct (check_fk_cases (titles db) "title"
                  (Review.title (Review_pre_save now add r))) as [Ht| ->];
        [|cbn; eauto].
      destruct Hmiss as [Hm|Hm].
      { rewrite (check_fk_None _ _ _ Hm) in Ht. discriminate. }
      rewrite Ht. cbn.
      change (Review.author (Review_pre_save now add r))
        with (Review.author r).
      rewrite (check_fk_None _ _ _ Hm). cbn. eauto. }
    destruct Hs as (e & Hs & c & ->).
    unfold run. cbn [exec]. unfold Review_save. rewrite Hs. cbn. eauto.
  - intros now pk c Hmiss.
    assert (Hs : ∃ e, save_row (Comment_pre_save now) (Comment_check db) pk c
                        (comments db) = inl e ∧
                      ∃ f, e = IntegrityError f).
    { apply save_row_refused. intros self add _. unfold Comment_check.
      destruct (check_fk_cases (reviews db) "review"
                  (Comment.review (Comment_pre_save now add c))) as [Ht| ->];
        [|cbn; eauto].
      destruct Hmiss as [Hm|Hm].
      { rewrite (check_fk_None _ _ _ Hm) in Ht. discriminate. }
      rewrite Ht. cbn.
      change (Comment.author (Comment_pre_save now add c))
        with (Comment.author c).
      rewrite (check_fk_None _ _ _ Hm). cbn. eauto. }
    destruct Hs as (e & Hs & f & ->).
    unfold run. cbn [exec]. unfold Comment_save. rewrite Hs. cbn. eauto.
  - intros pk x Hmiss.
    assert (Hs : ∃ e, save_row (λ _ y, y) (GenreTitle_check db) pk x
                        (genre_titles db) = inl e ∧
                      ∃ f, e = IntegrityError f).
    { apply save_row_refused. intros self add _. unfold GenreTitle_check.
      destruct (check_fk_cases (titles db) "title" (GenreTitle.title x))
        as [Ht| ->]; [|cbn; eauto].
      destruct Hmiss as [Hm|Hm].
      { rewrite (check_fk_None _ _ _ Hm) in Ht. discriminate. }
      rewrite Ht. cbn. rewrite (check_fk_None _ _ _ Hm). cbn. eauto. }
    destruct Hs as (e & Hs & f & ->).
    unfold run. cbn [exec]. unfold GenreTitle_save. rewrite Hs. cbn. eauto.
  - intros pk t c Hcat Hmiss.
    assert (Hs : ∃ e, save_row (λ _ y, y) (Title_check db) pk t
                        (titles db) = inl e ∧
                      ∃ f, e = IntegrityError f).
    { apply save_row_refused. intros self add _. unfold Title_check.
      destruct (PositiveSmallIntegerField_check_cases "year"
                  (Title.year t)) as [->| ->]; [|cbn; eauto].
      cbn. rewrite Hcat. cbn. rewrite (check_fk_None _ _ _ Hmiss). eauto. }
    destruct Hs as (e & Hs & f & ->).
    unfold run. cbn [exec]. unfold Title_save. rewrite Hs. cbn. eauto.
  - intros pk t Hcat Hyear. unfold Title_save.
    assert (His : is_ok (save_row (λ _ y, y) (Title_check db) pk t (titles db))
                  = is_ok (ok tt : result unit)).
    { apply save_row_is_ok. intros self add.
      apply Title_check_inr. split; [lia|]. intros c Hc. congruence. }
    by destruct (save_row _ _ _ _ _).
Qed.

(** X6, on the library: a review of a title that is not stored is
    refused; a title without category is stored. *)
Lemma foreign_keys_required_witness :
  titles Library.store !! 9 = None ∧
  run Library.store (SaveReview 70 None (Library.review 9 1 5))
    = Library.store ∧
  is_ok (Title_save None Library.hamlet Library.store) = true.
Proof.
  destruct (foreign_keys_required Library.store) as (Hr & _ & _ & _ & Ht).
  split; [vm_compute; reflexivity|]. split.
  - destruct (Hr 70 None (Library.review 9 1 5)) as [_ Hrun];
      [left; vm_compute; reflexivity | exact Hrun].
  - apply Ht; [reflexivity | cbn; lia].
Defined.

(** ** What an operation leaves alone *)

(** A title that is there after a cascade was there before, with the same
    name, year and description; its category is the same or was cleared. *)
Lemma cascade_titles_inv gu gc gg gt gr db i t' :
  titles (cascade gu gc gg gt gr db) !! i = Some t' →
  ∃ t, titles db !! i = Some t ∧
       Title.name t' = Title.name t ∧ Title.year t' = Title.year t ∧
       Title.description t' = Title.description t ∧
       (t' = t ∨
        ∃ c, Title.category t = Some c ∧ c ∈ gc ∧ Title.category t' = None).
Proof.
  rewrite cascade_titles.
  destruct (titles db !! i) as [t|]; [|discriminate]. cbn.
  intros [= <-]. exists t. split; [done|].
  destruct (Title.category t) as [c|] eqn:Hc; cbn; [|auto].
  case_bool_decide; cbn; eauto 10.
Qed.

Lemma exec_columns_in_range (o : op) (db db' : DB) :
  exec o db = inr db' → columns_in_range db → columns_in_range db'.
Proof.
  intros E [Ht Hr].
  assert (Hcas : ∀ gu gc gg gt gr d,
            (∀ i t, titles d !! i = Some t → titles db !! i = Some t) →
            (∀ i r, reviews d !! i = Some r → reviews db !! i = Some r) →
            columns_in_range (cascade gu gc gg gt gr d)).
  { intros gu gc gg gt gr d Hdt Hdr. split.
    - intros i t' (t & Hi & _ & -> & _)%cascade_titles_inv.
      apply (Ht i). auto.
    - intros i r (Hi & _)%cascade_reviews. apply (Hr i). auto. }
  destruct o; cbn [exec] in E;
    try (injection E as <-);
    try (apply fmap_inr in E as ([k db''] & E & ->);
         unfold User_save, Category_save, Genre_save, Title_save,
           GenreTitle_save, Review_save, Comment_save in E;
         apply save_inr in E as (add & self & Hchk & -> & _));
    try (by split);
    try (apply Hcas; cbn; try done;
         by intros i x [_ ?]%lookup_delete_Some).
  - (* SaveTitle *)
    apply Title_check_inr in Hchk as [Hy _]. split; [|done]. cbn.
    intros i t' [[<- <-]|[_ Hi]]%lookup_insert_Some; [done|]. by apply (Ht i).
  - (* SaveReview *)
    apply Review_check_inr in Hchk as [Hy _]. split; [done|]. cbn.
    intros i r' [[<- <-]|[_ Hi]]%lookup_insert_Some; [done|]. by apply (Hr i).
Qed.

(** X7.  In every store produced by a history of saves and deletes,
    validated or not, no title has a negative year and no review a
    negative score: the two columns are [PositiveSmallIntegerField]s, and a
    save with a negative value is refused with an integrity error naming
    the column and leaves the store as it was. *)
Theorem PositiveSmallIntegerField_columns (db : DB) :
  reachable db →
  (∀ i t, titles db !! i = Some t → 0 ≤ Title.year t) ∧
  (∀ i r, reviews db !! i = Some r → 0 ≤ Review.score r) ∧
  (∀ pk t, Title.year t < 0 →
     Title_save pk t db = inl (IntegrityError "year") ∧
     run db (SaveTitle pk t) = db) ∧
  (∀ now pk r, Review.score r < 0 →
     Review_save now pk r db = inl (IntegrityError "score") ∧
     run db (SaveReview now pk r) = db).
Proof.
  intros [os ->].
  assert (Hinv : columns_in_range (foldl run empty_db os)).
  { apply foldl_run_invariant.
    - intros d o Hd. unfold run.
      destruct (exec o d) as [e|d'] eqn:E; [done|].
      by apply (exec_columns_in_range o d).
    - split; intros i x Hi; cbn in Hi; by rewrite lookup_empty in Hi. }
  destruct Hinv as [Ht Hr]. split; [exact Ht|]. split; [exact Hr|].
  set (db := foldl run empty_db os). split.
  - intros pk t Hout.
    assert (Hs : ∃ e, save_row (λ _ y, y) (Title_check db) pk t (titles db)
                      = inl e ∧ e = IntegrityError "year").
    { apply save_row_refused. intros self add _. unfold Title_check.
      destruct (PositiveSmallIntegerField_check_cases "year" (Title.year t))
        as [Hok| ->]; [|cbn; eauto].
      apply PositiveSmallIntegerField_check_inr in Hok. lia. }
    destruct Hs as (e & Hs & ->).
    unfold run. cbn [exec]. unfold Title_save. by rewrite Hs.
  - intros now pk r Hout.
    assert (Hs : ∃ e, save_row (Review_pre_save now) (Review_check db) pk r
                        (reviews db) = inl e ∧ e = IntegrityError "score").
    { apply save_row_refused. intros self add _. unfold Review_check.
      destruct (PositiveSmallIntegerField_check_cases "score"
                  (Review.score (Review_pre_save now add r))) as [Hok| ->];
        [|cbn; eauto].
      apply PositiveSmallIntegerField_check_inr in Hok.
      change (Review.score (Review_pre_save now add r))
        with (Review.score r) in Hok. lia. }
    destruct Hs as (e & Hs & ->).
    unfold run. cbn [exec]. unfold Review_save. by rewrite Hs.
Qed.

(** X7, on the library: a review with score -1 is refused. *)
Lemma PositiveSmallIntegerField_columns_witness :
  reachable Library.store ∧
  Review_save 70 None (Library.review 2 1 (-1)) Library.store
    = inl (IntegrityError "score").
Proof.
  assert (Hre : reachable Library.store) by (by exists Library.history).
  split; [exact Hre|].
  destruct (PositiveSmallIntegerField_columns Library.store Hre)
    as (_ & _ & _ & Hs).
  destruct (Hs 70 None (Library.review 2 1 (-1))) as [Hsave _];
    [cbn; lia | exact Hsave].
Defined.

(** X8.  Comments carry no uniqueness: whenever the review and the author
    exist, a new comment is stored under a key that was free, stamped with
    the time of the save, next to every comment already there, whether or
    not the same author has commented on the same review before. *)
Theorem Comment_no_uniqueness (db : DB) (now : Z) (c : Comment.t) :
  is_Some (reviews db !! Comment.review c) →
  is_Some (users db !! Comment.author c) →
  comments db !! next_pk (comments db) = None ∧
  Comment_save now None c db =
    inr (next_pk (comments db),
         set_comments db
           (<[next_pk (comments db) := Comment.set_pub_date now c]>
              (comments db))) ∧
  ∀ i c0, comments db !! i = Some c0 →
    comments (run db (SaveComment now None c)) !! i = Some c0.
Proof.
  intros Hr Ha. split; [apply next_pk_fresh|].
  assert (Hs : Comment_save now None c db =
               inr (next_pk (comments db),
                    set_comments db
                      (<[next_pk (comments db) := Comment.set_pub_date now c]>
                         (comments db)))).
  { unfold Comment_save, save_row.
    rewrite (proj2 (Comment_check_inr db None (Comment_pre_save now true c)))
      by done.
    reflexivity. }
  split; [exact Hs|].
  intros i c0 Hi. unfold run. cbn [exec]. rewrite Hs. cbn.
  rewrite lookup_insert_ne; [done|].
  intros <-. by rewrite next_pk_fresh in Hi.
Qed.

(** X8, on the library: bob comments on review 1 a second time. *)
Lemma Comment_no_uniqueness_witness :
  comments Library.store !! 1 = Some (Comment.set_pub_date 40 (Library.comment 1 2)) ∧
  is_ok (Comment_save 70 None (Library.comment 1 2) Library.store) = true.
Proof.
  split; [vm_compute; reflexivity|].
  destruct (Comment_no_uniqueness Library.store 70 (Library.comment 1 2))
    as (_ & -> & _); [vm_compute; eauto | vm_compute; eauto | reflexivity].
Defined.

(** X9.  A stored review is changed by nothing but a save of that review:
    whatever other operation succeeds, a review found under a key
    afterwards was under that key before, with the same title, text,
    author, score and publication date. *)
Theorem Review_changed_only_by_its_save (o : op) (db db' : DB) (i : Z)
  (r' : Review.t) :
  exec o db = inr db' →
  reviews db' !! i = Some r' →
  reviews db !! i = Some r' ∨
  ∃ now pk r, o = SaveReview now pk r ∧ Review_save now pk r db = inr (i, db').
Proof.
  intros E Hi.
  destruct o; cbn [exec] in E;
    try (injection E as <-);
    try (apply fmap_inr in E as ([k db''] & E & ->));
    try (left; unfold User_save, Category_save, Genre_save, Title_save,
           GenreTitle_save, Comment_save in E;
         apply save_inr in E as (add & self & _ & -> & _); exact Hi);
    try (left; by apply cascade_reviews in Hi as (Hi & _)).
  - (* SaveReview *)
    destruct (decide (i = k)) as [->|Hne]; [right; eauto|].
    left. apply Review_save_lookup in E as [_ Hother].
    by rewrite <- (Hother i Hne).
  - left. exact Hi.
  - (* DeleteReview *)
    left. apply cascade_reviews in Hi as (Hi & _). cbn in Hi.
    by apply lookup_delete_Some in Hi as [_ ?].
  - left. exact Hi.
Qed.

(** X9, on the library: deleting user 1 leaves bob's review 2 as it was. *)
Lemma Review_changed_only_by_its_save_witness :
  reviews (User_delete 1 Library.store) !! 2
    = Some (Review.set_pub_date 20 (Library.review 1 2 7)) ∧
  reviews Library.store !! 2
    = Some (Review.set_pub_date 20 (Library.review 1 2 7)).
Proof.
  assert (H2 : reviews (User_delete 1 Library.store) !! 2
               = Some (Review.set_pub_date 20 (Library.review 1 2 7)))
    by (vm_compute; reflexivity).
  split; [exact H2|].
  assert (E : exec (DeleteUser 1) Library.store
              = inr (User_delete 1 Library.store)) by reflexivity.
  destruct (Review_changed_only_by_its_save (DeleteUser 1) Library.store
              (User_delete 1 Library.store) 2 _ E H2)
    as [H|(now & pk & r & Ho & _)]; [exact H | discriminate].
Defined.

(** X10.  A stored title keeps its name, year and description under every
    operation but a save of that title, and its category too, except that
    deleting the category it names clears it.  No operation other than
    deleting a title or saving one removes or adds a title. *)
Theorem Title_changed_only_by_its_save (o : op) (db db' : DB) (i : Z)
  (t' : Title.t) :
  exec o db = inr db' →
  titles db' !! i = Some t' →
  (∃ pk t, o = SaveTitle pk t ∧ Title_save pk t db = inr (i, db')) ∨
  ∃ t, titles db !! i = Some t ∧
       Title.name t' = Title.name t ∧ Title.year t' = Title.year t ∧
       Title.description t' = Title.description t ∧
       (t' = t ∨
        ∃ c, o = DeleteCategory c ∧ Title.category t = Some c ∧
             Title.category t' = None).
Proof.
  intros E Hi.
  assert (Hcas : ∀ gu gg gt gr d,
            titles (cascade gu ∅ gg gt gr d) !! i = Some t' →
            titles d !! i = Some t').
  { intros gu gg gt gr d (t & Ht & _ & _ & _ & [->|(c & _ & []%not_elem_of_empty & _)])
             %cascade_titles_inv. done. }
  destruct o; cbn [exec] in E;
    try (injection E as <-);
    try (apply fmap_inr in E as ([k db''] & E & ->));
    try (right; exists t'; repeat split; try (by left);
         unfold User_save, Category_save, Genre_save,
           GenreTitle_save, Review_save, Comment_save in E;
         apply save_inr in E as (add & self & _ & -> & _); exact Hi);
    try (right; exists t'; repeat split; try (by left);
         apply Hcas in Hi; cbn in Hi; exact Hi).
  - (* SaveTitle *)
    destruct (decide (i = k)) as [->|Hne]; [left; eauto|].
    right. exists t'. repeat split; try (by left).
    unfold Title_save in E.
    apply save_inr in E as (add & self & _ & -> & _). cbn in Hi.
    by rewrite lookup_insert_ne in Hi.
  - (* DeleteCategory *)
    right. unfold Category_delete in Hi.
    apply cascade_titles_inv in Hi
      as (t0 & Ht0 & Hn & Hy & Hd & [->|(c & Hc & ->%elem_of_singleton & Hc')]).
    + exists t0. repeat split; try done. by left.
    + exists t0. repeat split; try done. right. eauto.
  - (* DeleteTitle *)
    right. exists t'. repeat split; try (by left).
    apply Hcas in Hi. cbn in Hi. by apply lookup_delete_Some in Hi as [_ ?].
  - right. exists t'. repeat split; try (by left). exact Hi.
  - right. exists t'. repeat split; try (by left). exact Hi.
Qed.

(** X10, on the library: deleting category 1 leaves "Solaris" with its
    name and year and without a category. *)
Lemma Title_changed_only_by_its_save_witness :
  titles Library.store !! 1 = Some Library.solaris ∧
  ∃ t', titles (Category_delete 1 Library.store) !! 1 = Some t' ∧
        Title.name t' = "Solaris" ∧ Title.year t' = 1961.
Proof.
  assert (H1 : titles Library.store !! 1 = Some Library.solaris)
    by (vm_compute; reflexivity).
  split; [exact H1|].
  assert (H2 : titles (Category_delete 1 Library.store) !! 1
               = Some (Title.set_category None Library.solaris))
    by (vm_compute; reflexivity).
  exists (Title.set_category None Library.solaris). split; [exact H2|].
  assert (E : exec (DeleteCategory 1) Library.store
              = inr (Category_delete 1 Library.store)) by reflexivity.
  destruct (Title_changed_only_by_its_save (DeleteCategory 1) Library.store
              (Category_delete 1 Library.store) 1 _ E H2)
    as [(pk & t & Ho & _)|(t & Ht & Hn & Hy & _)]; [discriminate|].
  rewrite H1 in Ht. injection Ht as <-. split; [exact Hn | exact Hy].
Defined.

(** ** The other default orderings *)

Lemma objects_all_Sorted {A} (get : string → A → value)
  (ordering : list string) (tbl : gmap Z A) :
  Sorted (ordered get ordering) (objects_all get ordering tbl).
Proof. unfold objects_all. apply Sorted_merge_sort, _. Qed.

Lemma objects_all_elem_of {A} (get : string → A → value)
  (ordering : list string) (tbl : gmap Z A) (k : Z) (a : A) :
  (k, a) ∈ objects_all get ordering tbl ↔ tbl !! k = Some a.
Proof.
  unfold objects_all. rewrite merge_sort_Permutation.
  apply elem_of_map_to_list.
Qed.

Lemma objects_all_NoDup {A} (get : string → A → value)
  (ordering : list string) (tbl : gmap Z A) :
  NoDup (objects_all get ordering tbl).
Proof.
  unfold objects_all. rewrite merge_sort_Permutation.
  apply NoDup_map_to_list.
Qed.

Lemma compare_by_one {A} (get : string → A → value) (f : string) (a b : A) :
  compare_by get [f] a b = compare_value (get f a) (get f b).
Proof. cbn. by destruct (compare_value _ _). Qed.

(** X11.  A listing of the categories, and one of the genres, with no
    ordering asked for is ordered by slug, ascending: every entry's slug
    is less than or equal to the slug of every later entry.  Each listing
    holds the stored rows of its table, each once. *)
Theorem Category_Genre_objects_all_ordered (db : DB) :
  StronglySorted
    (λ x y, String.leb (Category.slug x.2) (Category.slug y.2) = true)
    (Category_objects_all db) ∧
  NoDup (Category_objects_all db) ∧
  (∀ k c, (k, c) ∈ Category_objects_all db ↔ categories db !! k = Some c) ∧
  StronglySorted
    (λ x y, String.leb (Genre.slug x.2) (Genre.slug y.2) = true)
    (Genre_objects_all db) ∧
  NoDup (Genre_objects_all db) ∧
  (∀ k g, (k, g) ∈ Genre_objects_all db ↔ genres db !! k = Some g).
Proof.
  split; [|split; [|split; [|split; [|split]]]].
  - apply Sorted_StronglySorted; [intros x y z; apply leb_trans|].
    apply (Sorted_weaken (ordered Category.get Category.Meta.ordering));
      [|apply objects_all_Sorted].
    intros x y. unfold ordered, Category.Meta.ordering.
    rewrite compare_by_one. cbn. unfold String.leb.
    by destruct (String.compare _ _).
  - apply objects_all_NoDup.
  - intros k c. apply objects_all_elem_of.
  - apply Sorted_StronglySorted; [intros x y z; apply leb_trans|].
    apply (Sorted_weaken (ordered Genre.get Genre.Meta.ordering));
      [|apply objects_all_Sorted].
    intros x y. unfold ordered, Genre.Meta.ordering.
    rewrite compare_by_one. cbn. unfold String.leb.
    by destruct (String.compare _ _).
  - apply objects_all_NoDup.
  - intros k g. apply objects_all_elem_of.
Qed.

Lemma compare_le (m n : Z) : (m ?= n) ≠ Gt ↔ m ≤ n.
Proof. unfold Z.le. done. Qed.

(** X12.  A listing of the titles with no ordering asked for is ordered by
    year, ascending, whatever the order in which the titles were saved;
    it holds the stored titles, each once. *)
Theorem Title_objects_all_ordered (db : DB) :
  StronglySorted (λ x y, Title.year x.2 ≤ Title.year y.2)
    (Title_objects_all db) ∧
  NoDup (Title_objects_all db) ∧
  ∀ k t, (k, t) ∈ Title_objects_all db ↔ titles db !! k = Some t.
Proof.
  split; [|split].
  - apply Sorted_StronglySorted; [intros x y z; lia|].
    apply (Sorted_weaken (ordered Title.get Title.Meta.ordering));
      [|apply objects_all_Sorted].
    intros x y. unfold ordered, Title.Meta.ordering.
    rewrite compare_by_one. cbn. apply compare_le.
  - apply objects_all_NoDup.
  - intros k t. apply objects_all_elem_of.
Qed.

(** X12, on the library: "Hamlet" (1603), saved second, is listed before
    "Solaris" (1961). *)
Lemma Title_objects_all_ordered_example :
  (λ x, Title.name x.2) <$> Title_objects_all Library.store
  = ["Hamlet"; "Solaris"].
Proof. vm_compute. reflexivity. Qed.

(** X13.  A listing of the reviews, and one of the comments, with no
    ordering asked for is ordered by publication date, ascending; each
    listing holds the stored rows of its table, each once. *)
Theorem Review_Comment_objects_all_ordered (db : DB) :
  StronglySorted (λ x y, Review.pub_date x.2 ≤ Review.pub_date y.2)
    (Review_objects_all db) ∧
  NoDup (Review_objects_all db) ∧
  (∀ k r, (k, r) ∈ Review_objects_all db ↔ reviews db !! k = Some r) ∧
  StronglySorted (λ x y, Comment.pub_date x.2 ≤ Comment.pub_date y.2)
    (Comment_objects_all db) ∧
  NoDup (Comment_objects_all db) ∧
  (∀ k c, (k, c) ∈ Comment_objects_all db ↔ comments db !! k = Some c).
Proof.
  split; [|split; [|split; [|split; [|split]]]].
  - apply Sorted_StronglySorted; [intros x y z; lia|].
    apply (Sorted_weaken (ordered Review.get Review.Meta.ordering));
      [|apply objects_all_Sorted].
    intros x y. unfold ordered, Review.Meta.ordering.
    rewrite compare_by_one. cbn. apply compare_le.
  - apply objects_all_NoDup.
  - intros k r. apply objects_all_elem_of.
  - apply Sorted_StronglySorted; [intros x y z; lia|].
    apply (Sorted_weaken (ordered Comment.get Comment.Meta.ordering));
      [|apply objects_all_Sorted].
    intros x y. unfold ordered, Comment.Meta.ordering.
    rewrite compare_by_one. cbn. apply compare_le.
  - apply objects_all_NoDup.
  - intros k c. apply objects_all_elem_of.
Qed.

(** X13, on the library: the reviews were saved at times 30, 20 and 10 and
    are listed in the order 3, 2, 1. *)
Lemma Review_objects_all_ordered_example :
  fst <$> Review_objects_all Library.store = [3; 2; 1].
Proof. vm_compute. reflexivity. Qed.

(** ** String representations *)

Lemma utf8_take_prefix (n : nat) (s : string) :
  ∃ rest, s = utf8_take n s +:+ rest.
Proof.
  revert n. induction s as [|a s IH]; intros n; cbn [utf8_take].
  - by exists "".
  - destruct (is_continuation a).
    + destruct (IH n) as [rest Hrest]. exists rest.
      change (String a s = String a (utf8_take n s +:+ rest)).
      by rewrite <- Hrest.
    + destruct n as [|n]; [by exists (String a s)|].
      destruct (IH n) as [rest Hrest]. exists rest.
      change (String a s = String a (utf8_take n s +:+ rest)).
      by rewrite <- Hrest.
Qed.

Lemma utf8_take_length (n : nat) (s : string) :
  utf8_length (utf8_take n s) = (n `min` utf8_length s)%nat.
Proof.
  revert n. induction s as [|a s IH]; intros n; cbn [utf8_take utf8_length].
  - lia.
  - destruct (is_continuation a) eqn:Ha.
    + cbn [utf8_length]. rewrite Ha, IH. lia.
    + destruct n as [|n]; cbn [utf8_length]; [lia|]. rewrite Ha, IH. lia.
Qed.

Lemma utf8_take_all (n : nat) (s : string) :
  (utf8_length s ≤ n)%nat → utf8_take n s = s.
Proof.
  revert n. induction s as [|a s IH]; intros n; cbn [utf8_take utf8_length];
    [done|].
  destruct (is_continuation a).
  - intros Hle. rewrite IH; [done | lia].
  - destruct n as [|n]; [lia|]. intros Hle. rewrite IH; [done | lia].
Qed.

Lemma utf8_length_app (s t : string) :
  utf8_length (s +:+ t) = (utf8_length s + utf8_length t)%nat.
Proof.
  induction s as [|a s IH]; [done|].
  change (((if is_continuation a then 0 else 1) + utf8_length (s +:+ t))%nat
          = ((if is_continuation a then 0 else 1) + utf8_length s
             + utf8_length t)%nat).
  rewrite IH. lia.
Qed.

Lemma slice_to_truncated (n : Z) (name : string) :
  truncated_to n name (slice_to n name).
Proof.
  unfold truncated_to, slice_to. split; [apply utf8_take_prefix|].
  rewrite utf8_take_length. split; [|split].
  - intros Hn. destruct (n <? 0) eqn:E; lia.
  - intros Hn. destruct (n <? 0) eqn:E; lia.
  - intros Hn. apply utf8_take_all. destruct (n <? 0) eqn:E; lia.
Qed.

(** X14.  The string representation of a category, of a genre and of a
    title is a prefix of the name: its first [LENGTH_TO_DISPLAY]
    characters, the whole name when it has no more characters than that,
    and, were the constant negative, the name without its last characters.
    Lengths count characters, whatever the number of bytes they take. *)
Theorem str_truncates_name `{Display} (c : Category.t) (g : Genre.t)
  (t : Title.t) :
  truncated_to LENGTH_TO_DISPLAY (Category.name c) (Category_str c) ∧
  truncated_to LENGTH_TO_DISPLAY (Genre.name g) (Genre_str g) ∧
  truncated_to LENGTH_TO_DISPLAY (Title.name t) (Title_str t) ∧
  (0 ≤ LENGTH_TO_DISPLAY →
     Z.of_nat (utf8_length (Category_str c)) ≤ LENGTH_TO_DISPLAY ∧
     Z.of_nat (utf8_length (Genre_str g)) ≤ LENGTH_TO_DISPLAY ∧
     Z.of_nat (utf8_length (Title_str t)) ≤ LENGTH_TO_DISPLAY).
Proof.
  pose proof (slice_to_truncated LENGTH_TO_DISPLAY (Category.name c)) as Hc.
  pose proof (slice_to_truncated LENGTH_TO_DISPLAY (Genre.name g)) as Hg.
  pose proof (slice_to_truncated LENGTH_TO_DISPLAY (Title.name t)) as Ht.
  split; [exact Hc|]. split; [exact Hg|]. split; [exact Ht|].
  intros Hn. unfold Category_str, Genre_str, Title_str.
  destruct Hc as (_ & Hc & _), Hg as (_ & Hg & _), Ht as (_ & Ht & _).
  specialize (Hc Hn). specialize (Hg Hn). specialize (Ht Hn). lia.
Qed.

(** X14, with [LENGTH_TO_DISPLAY = 5]: the seven characters of "Солярис",
    fourteen bytes, are shown as the five characters "Соляр", and "Books"
    in full. *)
Lemma str_truncates_name_witness :
  @Title_str Library.display Library.solaris_ru = "Соляр" ∧
  @Category_str Library.display Library.books = "Books" ∧
  Z.of_nat (utf8_length (@Title_str Library.display Library.solaris_ru)) ≤ 5.
Proof.
  split; [reflexivity|]. split; [reflexivity|].
  destruct (@str_truncates_name Library.display Library.books Library.classic
              Library.solaris_ru) as (_ & _ & _ & Hlen).
  destruct Hlen as (_ & _ & Ht); [cbn; lia | exact Ht].
Defined.

(** X15.  The string representation of a genre link exists exactly when
    both the title and the genre it names are stored, as they are for
    every link of a store without orphans.  With a constant that is not
    negative it has the characters of the two shortened names and one
    more, so at most [2 * LENGTH_TO_DISPLAY + 1], and it is the two names
    with a space in between when neither is longer than the constant. *)
Theorem GenreTitle_str_defined `{Display} (db : DB) (x : GenreTitle.t) :
  (is_Some (GenreTitle_str db x) ↔
     is_Some (titles db !! GenreTitle.title x) ∧
     is_Some (genres db !! GenreTitle.genre x)) ∧
  (∀ s, GenreTitle_str db x = Some s →
     ∃ t g, titles db !! GenreTitle.title x = Some t ∧
            genres db !! GenreTitle.genre x = Some g ∧
            (0 ≤ LENGTH_TO_DISPLAY →
             Z.of_nat (utf8_length s)
             = Z.min LENGTH_TO_DISPLAY (Z.of_nat (utf8_length (Title.name t)))
               + 1
               + Z.min LENGTH_TO_DISPLAY
                   (Z.of_nat (utf8_length (Genre.name g))) ∧
             Z.of_nat (utf8_length s) ≤ 2 * LENGTH_TO_DISPLAY + 1) ∧
            (Z.of_nat (utf8_length (Title.name t)) ≤ LENGTH_TO_DISPLAY →
             Z.of_nat (utf8_length (Genre.name g)) ≤ LENGTH_TO_DISPLAY →
             s = Title.name t +:+ " " +:+ Genre.name g)) ∧
  (no_orphans db → ∀ i, genre_titles db !! i = Some x →
     is_Some (GenreTitle_str db x)).
Proof.
  assert (Hdef : is_Some (GenreTitle_str db x) ↔
                 is_Some (titles db !! GenreTitle.title x) ∧
                 is_Some (genres db !! GenreTitle.genre x)).
  { unfold GenreTitle_str.
    destruct (titles db !! GenreTitle.title x) as [t|]; cbn.
    - destruct (genres db !! GenreTitle.genre x) as [g|]; cbn.
      + split; eauto.
      + split; [by intros [? ?] | by intros [_ [? ?]]].
    - split; [by intros [? ?] | by intros [[? ?] _]]. }
  split; [exact Hdef|]. split.
  - intros s. unfold GenreTitle_str.
    destruct (titles db !! GenreTitle.title x) as [t|]; [|discriminate].
    destruct (genres db !! GenreTitle.genre x) as [g|]; [|discriminate].
    cbn. intros [= <-]. exists t, g. split; [done|]. split; [done|].
    destruct (slice_to_truncated LENGTH_TO_DISPLAY (Title.name t))
      as (_ & Ht & _ & Ht').
    destruct (slice_to_truncated LENGTH_TO_DISPLAY (Genre.name g))
      as (_ & Hg & _ & Hg').
    unfold Title_str, Genre_str. split.
    + intros Hn. specialize (Ht Hn). specialize (Hg Hn).
      rewrite !utf8_length_app.
      change (utf8_length " ") with 1%nat. lia.
    + intros Hst Hsg. by rewrite (Ht' Hst), (Hg' Hsg).
  - intros (_ & H2 & _) i Hi. apply Hdef. exact (H2 i x Hi).
Qed.

(** X15, with [LENGTH_TO_DISPLAY = 5]: the link of "Солярис" to "Драма" is
    shown as "Соляр Драма", and on the library the link of "Solaris" to
    "Classical music" as "Solar Class". *)
Lemma GenreTitle_str_defined_witness :
  no_orphans Library.store ∧
  @GenreTitle_str Library.display Library.store
    {| GenreTitle.title := 1; GenreTitle.genre := 1 |} = Some "Solar Class" ∧
  @GenreTitle_str Library.display Library.store_ru
    {| GenreTitle.title := 1; GenreTitle.genre := 1 |} = Some "Соляр Драма" ∧
  is_Some (@GenreTitle_str Library.display Library.store
             {| GenreTitle.title := 1; GenreTitle.genre := 1 |}).
Proof.
  assert (Hinv : no_orphans Library.store).
  { apply reachable_no_orphans. by exists Library.history. }
  split; [exact Hinv|]. split; [vm_compute; reflexivity|].
  split; [vm_compute; reflexivity|].
  destruct (@GenreTitle_str_defined Library.display Library.store
              {| GenreTitle.title := 1; GenreTitle.genre := 1 |})
    as (_ & _ & H).
  apply (H Hinv 1). vm_compute. reflexivity.
Defined.

(** ** Roles *)

(** X16.  A moderator is an admin only through the superuser flag, so
    without the flag no user is both; a user with the default role is no
    moderator and is an admin only through the flag; and the flag alone
    makes an admin whatever the role. *)
Theorem role_predicates_exclusive (u : User.t) :
  (User.is_moderator u = true →
     User.is_admin u = User.is_superuser u) ∧
  (User.is_superuser u = false →
     ¬ (User.is_admin u = true ∧ User.is_moderator u = true)) ∧
  (User.role u = User.role_default →
     User.is_moderator u = false ∧
     User.is_admin u = User.is_superuser u) ∧
  (User.is_superuser u = true → User.is_admin u = true).
Proof.
  unfold User.is_admin, User.is_moderator.
  split; [|split; [|split]].
  - intros ->%String.eqb_eq. reflexivity.
  - intros -> [Ha Hm]. apply String.eqb_eq in Hm. rewrite Hm in Ha.
    discriminate.
  - intros ->. split; reflexivity.
  - intros ->. apply orb_true_r.
Qed.

(** X16, on the library: ann is a moderator without the flag, hence no
    admin. *)
Lemma role_predicates_exclusive_witness :
  User.is_moderator Library.ann = true ∧ User.is_admin Library.ann = false.
Proof.
  split; [reflexivity|].
  destruct (role_predicates_exclusive Library.ann) as [H _].
  rewrite H; reflexivity.
Defined.

(** X17.  The width of the role column, taken from the longest label, is
    13, and validation of the field accepts exactly the three declared
    values: each of them fits the width, the default among them, and
    anything else is refused as not being a choice. *)
Theorem User_role_clean_accepts_choices (role : string) :
  role_max_length = 13%nat ∧
  (User_role_clean role = ok tt ↔
     role = User.USER ∨ role = User.ADMIN ∨ role = User.MODERATOR) ∧
  (User_role_clean role ≠ ok tt →
     User_role_clean role = inl (ValidationError "role")) ∧
  User_role_clean User.role_default = ok tt.
Proof.
  split; [reflexivity|].
  assert (Hin : role ∈ USER_ROLE.*1 ↔
                role = User.USER ∨ role = User.ADMIN ∨ role = User.MODERATOR).
  { unfold USER_ROLE. cbn. rewrite !elem_of_cons, elem_of_nil. tauto. }
  split; [|split; [|reflexivity]].
  - unfold User_role_clean. case_bool_decide as Hc.
    + apply Hin in Hc as Hr. split; [done|]. intros _.
      destruct Hr as [->|[->| ->]]; reflexivity.
    + split; [discriminate|]. intros Hr. by apply Hin in Hr.
  - unfold User_role_clean. case_bool_decide as Hc; [|done].
    apply Hin in Hc as [->|[->| ->]]; intros Hne; by destruct Hne.
Qed.

(** X17: "owner" is not a role. *)
Lemma User_role_clean_accepts_choices_witness :
  User_role_clean "owner" ≠ ok tt ∧
  User_role_clean "owner" = inl (ValidationError "role").
Proof.
  assert (Hne : User_role_clean "owner" ≠ ok tt) by discriminate.
  split; [exact Hne|].
  destruct (User_role_clean_accepts_choices "owner") as (_ & _ & H & _).
  exact (H Hne).
Defined.

(** ** Migration 0003 *)

(** X18.  Migration 0003 changes the schema state of [title] and [review]
    and of nothing else: [title] loses the [rating] field and keeps every
    other field and its [unique_together]; [review] keeps its fields, with
    [text] a [TextField], and gets (title, author) as its
    [unique_together].  It cannot be applied a second time: the field it
    removes is no longer there. *)
Theorem Migration_0003_effect (st st' : gmap string ModelState) :
  apply_operations Migration_0003_auto_20240705_1915.operations st = Some st' →
  (∃ ms, st !! "title" = Some ms ∧
         st' !! "title" =
           Some {| ms_fields := delete "rating" (ms_fields ms);
                   ms_unique_together := ms_unique_together ms |}) ∧
  (∃ ms, st !! "review" = Some ms ∧
         st' !! "review" =
           Some {| ms_fields := <["text":="TextField"]> (ms_fields ms);
                   ms_unique_together := [["title"; "author"]] |}) ∧
  (∀ m, m ≠ "title" → m ≠ "review" → st' !! m = st !! m) ∧
  apply_operations Migration_0003_auto_20240705_1915.operations st' = None.
Proof.
  unfold Migration_0003_auto_20240705_1915.operations. cbn. intros Happ.
  destruct (st !! "title") as [ms0|] eqn:Ht; [|discriminate]. cbn in Happ.
  destruct (ms_fields ms0 !! "rating") as [f|] eqn:Hf; [|discriminate].
  cbn in Happ. rewrite lookup_insert_ne in Happ by done.
  destruct (st !! "review") as [ms1|] eqn:Hr; [|discriminate].
  cbn in Happ. rewrite lookup_insert_eq in Happ. cbn in Happ.
  injection Happ as <-.
  split; [|split; [|split]].
  - exists ms0. split; [done|].
    rewrite lookup_insert_ne by done. rewrite lookup_insert_ne by done.
    by rewrite lookup_insert_eq.
  - exists ms1. split; [done|]. by rewrite lookup_insert_eq.
  - intros m Hm1 Hm2. by rewrite !lookup_insert_ne.
  - rewrite lookup_insert_ne by done. rewrite lookup_insert_ne by done.
    rewrite lookup_insert_eq. cbn. by rewrite lookup_delete_eq.
Qed.

(** X18, on a schema in which [title] has its [rating] field: the
    migration applies once and not twice. *)
Lemma Migration_0003_effect_witness :
  ∃ st', apply_operations Migration_0003_auto_20240705_1915.operations
           Scenario.schema_0002 = Some st' ∧
         apply_operations Migration_0003_auto_20240705_1915.operations st'
           = None.
Proof.
  destruct (apply_operations Migration_0003_auto_20240705_1915.operations
              Scenario.schema_0002) as [st'|] eqn:E.
  - exists st'. split; [reflexivity|].
    exact (proj2 (proj2 (proj2 (Migration_0003_effect _ _ E)))).
  - vm_compute in E. discriminate.
Defined.

(** ** Deleting twice, deleting what is not there *)

Lemma DB_eq (d e : DB) :
  users d = users e → categories d = categories e → genres d = genres e →
  titles d = titles e → genre_titles d = genre_titles e →
  reviews d = reviews e → comments d = comments e → d = e.
Proof. destruct d, e; cbn. by intros -> -> -> -> -> -> ->. Qed.

Lemma Title_delete_titles (k : Z) (d : DB) :
  titles (Title_delete k d) = delete k (titles d).
Proof.
  apply map_eq. intros j. unfold Title_delete. rewrite cascade_titles. cbn.
  destruct (delete k (titles d) !! j) as [t|]; [|done]. cbn.
  destruct (Title.category t); cbn; [|done].
  rewrite bool_decide_eq_false_2; [done | apply not_elem_of_empty].
Qed.

Lemma Title_delete_genre_titles (k : Z) (d : DB) (i : Z) (x : GenreTitle.t) :
  genre_titles (Title_delete k d) !! i = Some x ↔
  genre_titles d !! i = Some x ∧ GenreTitle.title x ≠ k.
Proof.
  unfold Title_delete. rewrite cascade_genre_titles. cbn.
  rewrite elem_of_singleton. split; [by intros (? & ? & _)|].
  intros [? ?]. split; [done|]. split; [done | apply not_elem_of_empty].
Qed.

Lemma Title_delete_reviews (k : Z) (d : DB) (i : Z) (r : Review.t) :
  reviews (Title_delete k d) !! i = Some r ↔
  reviews d !! i = Some r ∧ Review.title r ≠ k.
Proof.
  unfold Title_delete. rewrite cascade_reviews. cbn.
  rewrite elem_of_singleton. split; [by intros (? & ? & _)|].
  intros [? ?]. split; [done|]. split; [done | apply not_elem_of_empty].
Qed.

Lemma Title_delete_comments (k : Z) (d : DB) (i : Z) (c : Comment.t) :
  comments (Title_delete k d) !! i = Some c ↔
  comments d !! i = Some c ∧
  ∀ r, reviews d !! Comment.review c = Some r → Review.title r ≠ k.
Proof.
  unfold Title_delete. rewrite cascade_comments. cbn.
  setoid_rewrite elem_of_singleton. split.
  - intros (Hc & _ & _ & Hr). split; [done|].
    intros r Hl. by destruct (Hr r Hl).
  - intros [Hc Hr]. split; [done|].
    split; [apply not_elem_of_empty|]. split; [apply not_elem_of_empty|].
    intros r Hl. split; [by apply Hr | apply not_elem_of_empty].
Qed.

(** X19.  Deleting a title a second time changes nothing more, and in a
    store without orphans deleting a title that is not stored changes
    nothing at all. *)
Theorem Title_delete_twice_or_missing (db : DB) (k : Z) :
  Title_delete k (Title_delete k db) = Title_delete k db ∧
  (no_orphans db → titles db !! k = None → Title_delete k db = db).
Proof.
  split.
  - apply DB_eq; try reflexivity.
    + rewrite !Title_delete_titles. apply map_eq. intros j.
      destruct (decide (j = k)) as [->|Hne].
      * by rewrite !lookup_delete_eq.
      * by rewrite !lookup_delete_ne.
    + apply map_eq. intros j. apply option_eq. intros x.
      rewrite !Title_delete_genre_titles. tauto.
    + apply map_eq. intros j. apply option_eq. intros r.
      rewrite !Title_delete_reviews. tauto.
    + apply map_eq. intros j. apply option_eq. intros c.
      rewrite (Title_delete_comments k (Title_delete k db)).
      split; [by intros [? _]|]. intros Hc. split; [done|].
      intros r Hr. by apply Title_delete_reviews in Hr as [_ ?].
  - intros (_ & H2 & H3 & H4) Hk.
    apply DB_eq; try reflexivity.
    + rewrite Title_delete_titles. apply map_eq. intros j.
      destruct (decide (j = k)) as [->|Hne].
      * by rewrite lookup_delete_eq.
      * by rewrite lookup_delete_ne.
    + apply map_eq. intros j. apply option_eq. intros x.
      rewrite Title_delete_genre_titles.
      split; [by intros [? _]|]. intros Hx. split; [done|].
      intros Heq. destruct (H2 j x Hx) as [[t Ht] _]. congruence.
    + apply map_eq. intros j. apply option_eq. intros r.
      rewrite Title_delete_reviews.
      split; [by intros [? _]|]. intros Hr. split; [done|].
      intros Heq. destruct (H3 j r Hr) as [[t Ht] _]. congruence.
    + apply map_eq. intros j. apply option_eq. intros c.
      rewrite Title_delete_comments.
      split; [by intros [? _]|]. intros Hc. split; [done|].
      intros r Hr Heq. destruct (H3 _ r Hr) as [[t Ht] _]. congruence.
Qed.

(** X19, on the library: no title is stored under key 9, and deleting it
    leaves the store as it is. *)
Lemma Title_delete_twice_or_missing_witness :
  no_orphans Library.store ∧ titles Library.store !! 9 = None ∧
  Title_delete 9 Library.store = Library.store.
Proof.
  assert (Hinv : no_orphans Library.store).
  { apply reachable_no_orphans. by exists Library.history. }
  assert (Hk : titles Library.store !! 9 = None) by (vm_compute; reflexivity).
  split; [exact Hinv|]. split; [exact Hk|].
  exact (proj2 (Title_delete_twice_or_missing Library.store 9) Hinv Hk).
Defined.

(** ** Saving and reading back *)

(** X20.  A review that was saved is read back under the key the save
    returned with the title, text, author and score it was given; every
    other review and every other table is as before.  A save without a
    key uses a key that was free, so it adds one row and replaces none; a
    save under the key of a stored review replaces that row alone. *)
Theorem Review_save_read_back (now : Z) (pk : option Z) (r : Review.t)
  (db db' : DB) (k : Z) :
  Review_save now pk r db = inr (k, db') →
  (∃ r', reviews db' !! k = Some r' ∧
         Review.title r' = Review.title r ∧ Review.text r' = Review.text r ∧
         Review.author r' = Review.author r ∧
         Review.score r' = Review.score r) ∧
  (∀ j, j ≠ k → reviews db' !! j = reviews db !! j) ∧
  (pk = None → reviews db !! k = None) ∧
  (∀ k0, pk = Some k0 → k = k0) ∧
  users db' = users db ∧ titles db' = titles db ∧
  comments db' = comments db ∧ genre_titles db' = genre_titles db ∧
  categories db' = categories db ∧ genres db' = genres db.
Proof.
  unfold Review_save. intros (add & self & _ & -> & Hcase)%save_inr.
  split; [|split; [|split; [|split]]]; [| | | |done].
  - exists (Review_pre_save now add r). cbn. by rewrite lookup_insert_eq.
  - intros j Hj. cbn. by rewrite lookup_insert_ne.
  - intros ->. by destruct Hcase as [(_ & _ & [=] & _)|(_ & _ & ? & _)].
  - intros k0 ->.
    destruct Hcase as [(_ & _ & [= ->] & _)|(_ & _ & _ & [[= ->]|[[=] _]])];
      done.
Qed.

(** X20, on the library: a review of title 2 by user 1, with score 6, is
    stored under the new key 4 and read back with that score. *)
Lemma Review_save_read_back_witness :
  is_ok (Review_save 70 None (Library.review 2 1 6) Library.store) = true ∧
  Review.score <$>
    reviews (run Library.store (SaveReview 70 None (Library.review 2 1 6))) !! 4
  = Some 6.
Proof.
  split; [vm_compute; reflexivity|].
  destruct (Review_save 70 None (Library.review 2 1 6) Library.store)
    as [e|[k db']] eqn:E; [vm_compute in E; discriminate|].
  assert (Hk : k = 4).
  { vm_compute in E. by injection E as <- _. }
  destruct (Review_save_read_back _ _ _ _ _ _ E)
    as ((r' & Hr' & _ & _ & _ & Hs) & _).
  unfold run. cbn [exec]. rewrite E. cbn. subst k. rewrite Hr'. cbn.
  by rewrite Hs.
Defined.

(** X21.  Deleting a genre removes its row and the links to it, and
    nothing else: every title, review, comment, user and category is left
    as it was. *)
Theorem Genre_delete_keeps_titles (db : DB) (k : Z) :
  genres (Genre_delete k db) = delete k (genres db) ∧
  titles (Genre_delete k db) = titles db ∧
  reviews (Genre_delete k db) = reviews db ∧
  comments (Genre_delete k db) = comments db ∧
  users (Genre_delete k db) = users db ∧
  categories (Genre_delete k db) = categories db ∧
  (no_orphans db → no_orphans (Genre_delete k db)).
Proof.
  split; [reflexivity|]. split; [|split; [|split; [|split; [|split]]]].
  - apply map_eq. intros j. unfold Genre_delete. rewrite cascade_titles. cbn.
    destruct (titles db !! j) as [t|]; [|done]. cbn.
    destruct (Title.category t); cbn; [|done].
    rewrite bool_decide_eq_false_2; [done | apply not_elem_of_empty].
  - apply map_eq. intros j. apply option_eq. intros x.
    unfold Genre_delete. rewrite cascade_reviews. cbn.
    split; [by intros (? & _)|]. intros Hx.
    split; [done|]. split; apply not_elem_of_empty.
  - apply map_eq. intros j. apply option_eq. intros x.
    unfold Genre_delete. rewrite cascade_comments. cbn.
    split; [by intros (? & _)|]. intros Hx.
    split; [done|]. split; [apply not_elem_of_empty|].
    split; [apply not_elem_of_empty|].
    intros r _. split; apply not_elem_of_empty.
  - reflexivity.
  - reflexivity.
  - apply Genre_delete_no_orphans.
Qed.

(** X21, on the library: deleting genre 1 keeps both titles. *)
Lemma Genre_delete_keeps_titles_witness :
  no_orphans Library.store ∧
  no_orphans (Genre_delete 1 Library.store) ∧
  dom (titles (Genre_delete 1 Library.store)) = {[1; 2]} ∧
  genre_titles (Genre_delete 1 Library.store) = ∅.
Proof.
  assert (Hinv : no_orphans Library.store).
  { apply reachable_no_orphans. by exists Library.history. }
  split; [exact Hinv|]. split; [|split; vm_compute; reflexivity].
  exact (proj2 (proj2 (proj2 (proj2 (proj2 (proj2
           (Genre_delete_keeps_titles Library.store 1)))))) Hinv).
Defined.
